(** * The JavaScript bridge of the benthos fork: host functions, argument
      marshalling, stage construction and the output stage's dispatch loop.

    Sources embedded here:
    - [internal/impl/javascript/vm.go]: [getVM], [setFunction], [parseArgs];
    - the output stage ([newJavaScriptWriter], [Consume], [loop], [WriteBatch],
      [TriggerCloseNow], [WaitForClose]) and the processor stage
      ([newJavaScript], [Process]);
    - the two [JavaScriptConfig] structs.

    The scripting engine (goja), the file system, the resource manager and
    the sinks are collaborators: the engine's value interface is a type
    class, the others are explicit state or parameters of a Section. *)

From Stdlib Require Import SpecFloat.
From stdpp Require Import gmap strings list pretty.

Set Warnings "-register-all,-clear-no-such-hyp".

(** ** Go values *)

(** A Go [float64], as the Standard Library's specification floats (no
    arithmetic on them is needed here). *)
Definition float64 : Type := spec_float.

(** Go's [interface{}] as far as the bridge moves it around: what
    [Value.Export] produces and what [Runtime.ToValue] consumes. *)
Inductive any : Type :=
  | ANil
  | ABool (b : bool)
  | AInt (z : Z)
  | AFloat (f : float64)
  | AString (s : string)
  | ASlice (l : list any)
  | AMap (m : gmap string any).

(** Go [error] values. [ErrorsNew] is [errors.New]; the next four are the
    [fmt.Errorf] calls of [parseArgs], kept structured instead of formatted;
    [ErrWrapped] is [fmt.Errorf(msg + ": %v", cause)] of the constructors;
    [ErrExternal] is an error handed back by a collaborator. *)
Inductive error : Type :=
  | ErrorsNew (msg : string)
  | ErrTooManyArguments (have pointers : nat)
  | ErrUndefinedArgument (position : nat)
  | ErrUnhandledType (position : nat)
  | ErrCouldNotParse (position : nat) (cause : error)
  | ErrWrapped (msg : string) (cause : error)
  | ErrExternal (origin : string).

(** ** The engine's value interface

    [goja.Value] is a Go interface; the bridge uses the methods below, plus
    [goja.IsUndefined], [goja.Null] and [Runtime.ToValue].  None of the
    conversion methods can fail: their Go signatures return no error. *)
Class GojaValue (Value : Type) : Type := {
  IsUndefined : Value → bool;
  Null : Value;
  vString : Value → string;
  ToInteger : Value → Z;
  ToFloat : Value → float64;
  ToBoolean : Value → bool;
  Export : Value → any;
  ToValue : any → Value;
}.

(** ** Messages, caches, sinks *)

(** Modelled from the spec: [message.Part] is not among the sources; the spec
    gives it "a byte/structured payload and a string-keyed metadata mapping
    (keys unique)" with "mutable metadata mapping accessors,
    structured-payload get/set".  [structured] is [None] for a part without
    a structured form. *)
Record Part : Type := mkPart {
  structured : option any;
  metadata : gmap string any;
}.

Definition MetaGetMut (p : Part) (key : string) : option any := metadata p !! key.
Definition MetaSetMut (p : Part) (key : string) (value : any) : Part :=
  mkPart (structured p) (<[key := value]> (metadata p)).
Definition MetaDelete (p : Part) (key : string) : Part :=
  mkPart (structured p) (delete key (metadata p)).
Definition SetStructured (p : Part) (value : any) : Part :=
  mkPart (Some value) (metadata p).
Definition AsStructuredMut (p : Part) : any * option error :=
  match structured p with
  | Some v => (v, None)
  | None => (ANil, Some (ErrExternal "AsStructuredMut"))
  end.

(** One call of [mgr.AccessCache] with the operation its closure performs. *)
Inductive CacheAccess : Type :=
  | CacheGet (resource key : string)
  | CacheSet (resource key value : string).

(** Modelled from the spec: the resource manager and its caches are not among
    the sources; the spec gives a cache [Get(context, key) -> (bytes, error)]
    and [Set(context, key, bytes, optional ttl) -> error].  A resource is a
    finite map; [accesses] records every call of [AccessCache], newest
    first. *)
Record Manager : Type := mkManager {
  resources : gmap string (gmap string string);
  accesses : list CacheAccess;
}.

(** [AccessCache name (fun cache => cache.Get key)]: the pair is
    ([_result], [err]) after the call, [cerr] already folded into [err]. *)
Definition AccessCache_Get (m : Manager) (name key : string)
  : (string * option error) * Manager :=
  let m' := mkManager (resources m) (CacheGet name key :: accesses m) in
  match resources m !! name with
  | None => (("", Some (ErrExternal "AccessCache")), m')
  | Some c =>
      match c !! key with
      | Some v => ((v, None), m')
      | None => (("", Some (ErrExternal "cache.Get")), m')
      end
  end.

Definition AccessCache_Set (m : Manager) (name key value : string)
  : option error * Manager :=
  match resources m !! name with
  | None =>
      (Some (ErrExternal "AccessCache"),
       mkManager (resources m) (CacheSet name key value :: accesses m))
  | Some c =>
      (None,
       mkManager (<[name := <[key := value]> c]> (resources m))
                 (CacheSet name key value :: accesses m))
  end.

(** [message.Transaction]: a batch (one byte payload per message) and the
    acknowledgement callback, [None] for Go's [nil]. *)
Record Transaction : Type := mkTransaction {
  Payload : list string;
  Ack : option nat;
}.

Definition QuickBatch (bs : list string) : list string := bs.
Definition NewTransaction (batch : list string) (ack : option nat) : Transaction :=
  mkTransaction batch ack.

(** An unbuffered [chan message.Transaction]: whether [close] was called
    and the transactions its receiver has taken, newest first. *)
Record TSChan : Type := mkChan {
  chan_closed : bool;
  chan_taken : list Transaction;
}.

Definition make_chan : TSChan := mkChan false [].

Inductive LogEntry : Type :=
  | LogError (e : error).

(** What a host function's Go body hands back: its two results, or a Go
    run-time panic. *)
Inductive outcome : Type :=
  | Returned (result : any) (err : option error)
  | Panicked.

(** Everything the closures registered by [getVM] read or write. *)
Record HostState : Type := mkHost {
  msgpart : Part;
  mgr : Manager;
  outputTSChans : list TSChan;
  logger : list LogEntry;
}.

Definition with_msgpart (p : Part) (st : HostState) : HostState :=
  mkHost p (mgr st) (outputTSChans st) (logger st).
Definition with_mgr (m : Manager) (st : HostState) : HostState :=
  mkHost (msgpart st) m (outputTSChans st) (logger st).
Definition with_chans (cs : list TSChan) (st : HostState) : HostState :=
  mkHost (msgpart st) (mgr st) cs (logger st).
Definition Errorln (e : error) (st : HostState) : HostState :=
  mkHost (msgpart st) (mgr st) (outputTSChans st) (LogError e :: logger st).

(** Modelled from the spec: [query.IToString] is not among the sources;
    [getMeta] returns the value "coerced to string".  A string is returned
    as it is; [stringify] stands for the rendering of the other values. *)
Definition IToString (stringify : any → string) (v : any) : string :=
  match v with
  | AString s => s
  | _ => stringify v
  end.

(** ** The argument marshaller and the host functions *)

(** A destination of [parseArgs]: a typed pointer, with the present content
    of the variable it points to.  Go's [int] is taken as 64 bits wide, so
    [int(arg.ToInteger())] is [arg.ToInteger()].  [PUnhandled] is a pointer
    of any type the [switch] has no case for. *)
Inductive ptr (Value : Type) : Type :=
  | PString (v : string)
  | PInt (v : Z)
  | PInt64 (v : Z)
  | PFloat64 (v : float64)
  | PMap (v : gmap string any)
  | PBool (v : bool)
  | PSlice (v : list any)
  | PMapSlice (v : list (gmap string any))
  | PValue (v : option Value)
  | PAny (v : any)
  | PUnhandled.

Arguments PString {Value} v.
Arguments PInt {Value} v.
Arguments PInt64 {Value} v.
Arguments PFloat64 {Value} v.
Arguments PMap {Value} v.
Arguments PBool {Value} v.
Arguments PSlice {Value} v.
Arguments PMapSlice {Value} v.
Arguments PValue {Value} v.
Arguments PAny {Value} v.
Arguments PUnhandled {Value}.

(** What the script gets back from a bridged call: a value, or the Go
    panic of the body passing through the bridge. *)
Inductive bridged (Value : Type) : Type :=
  | BValue (v : Value)
  | BPanic.

Arguments BValue {Value} v.
Arguments BPanic {Value}.

(** The three outcomes of the [select] in [benthos_output]. *)
Inductive SendResult : Type :=
  | Sent (c : TSChan)
  | TimedOut
  | SendPanic.

(** [select { case c <- t: ; case <-time.After(time.Second): }].  [ready]
    says whether the receiver of [c] takes a value within the second; a send
    on a closed channel panics. *)
Definition select_send (ready : bool) (c : TSChan) (t : Transaction) : SendResult :=
  if chan_closed c then SendPanic
  else if ready then Sent (mkChan false (t :: chan_taken c))
  else TimedOut.

(** [isOK := false; for _, _cache := range caches { if _cache == cacheName { isOK = true } }] *)
Fixpoint cache_permitted (caches : list string) (cacheName : string) (isOK : bool) : bool :=
  match caches with
  | [] => isOK
  | _cache :: rest =>
      cache_permitted rest cacheName (if bool_decide (_cache = cacheName) then true else isOK)
  end.

(** [for i := range outputs { if resName == outputs[i] { idx = i } }] *)
Fixpoint find_output (i : nat) (outputs : list string) (resName : string) (idx : Z) : Z :=
  match outputs with
  | [] => idx
  | o :: rest =>
      find_output (S i) rest resName (if bool_decide (resName = o) then Z.of_nat i else idx)
  end.

Section Bridge.
Context {Value : Type} `{!GojaValue Value}.

(** The three helpers of package [javascript] that [parseArgs] calls and
    that are not among the sources; each returns its result and an
    error. *)
Variable getMapFromValue : Value → gmap string any * option error.
Variable getSliceFromValue : Value → list any * option error.
Variable getMapSliceFromValue : Value → list (gmap string any) * option error.

(** Rendering of non-string metadata values by [query.IToString]. *)
Variable stringify : any → string.

(** The outbound HTTP exchange of [fetch] ([http.NewRequest], the header
    block parse, [http.DefaultClient.Do], [io.ReadAll]) on method, url,
    header block and payload: status and body, or the first error. *)
Variable http_exchange : string → string → string → string → (Z * string) + error.

(** [goja.FunctionCall], reduced to its [Arguments]. *)
Definition FunctionCall : Type := list Value.

(** The [if err != nil] after the [switch]. *)
Definition wrap_parse_error (i : nat) (err : option error) : option error :=
  match err with
  | Some e => Some (ErrCouldNotParse i e)
  | None => None
  end.

(** One iteration's [switch p := ptr.(type)]: the new content of the
    destination and the error the iteration returns, if any. *)
Definition assign (i : nat) (arg : Value) (p : ptr Value) : ptr Value * option error :=
  match p with
  | PString _ => (PString (vString arg), None)
  | PInt _ => (PInt (ToInteger arg), None)
  | PInt64 _ => (PInt64 (ToInteger arg), None)
  | PFloat64 _ => (PFloat64 (ToFloat arg), None)
  | PMap _ =>
      let '(m, err) := getMapFromValue arg in (PMap m, wrap_parse_error i err)
  | PBool _ => (PBool (ToBoolean arg), None)
  | PSlice _ =>
      let '(s, err) := getSliceFromValue arg in (PSlice s, wrap_parse_error i err)
  | PMapSlice _ =>
      let '(s, err) := getMapSliceFromValue arg in (PMapSlice s, wrap_parse_error i err)
  | PValue _ => (PValue (Some arg), None)
  | PAny _ => (PAny (Export arg), None)
  | PUnhandled => (PUnhandled, Some (ErrUnhandledType i))
  end.

(** The [for] loop of [parseArgs] from index [i] on, over the arguments
    and destinations not yet visited.  The last case is Go's index panic
    on [ptrs[i]]; the length check of [parseArgs] excludes it. *)
Fixpoint parseArgs_from (i : nat) (args : list Value) (ptrs : list (ptr Value))
  : option error * list (ptr Value) :=
  match args, ptrs with
  | [], _ => (None, ptrs)
  | arg :: args', p :: ptrs' =>
      if IsUndefined arg then (Some (ErrUndefinedArgument i), ptrs)
      else
        match assign i arg p with
        | (p', Some e) => (Some e, p' :: ptrs')
        | (p', None) =>
            let '(e, rest) := parseArgs_from (S i) args' ptrs' in (e, p' :: rest)
        end
  | _ :: _, [] => (Some (ErrExternal "index out of range"), [])
  end.

(** [parseArgs]: the error it returns and the destinations after it. *)
Definition parseArgs (call : FunctionCall) (ptrs : list (ptr Value))
  : option error * list (ptr Value) :=
  if bool_decide (length ptrs < length call)
  then (Some (ErrTooManyArguments (length call) (length ptrs)), ptrs)
  else parseArgs_from 0 call ptrs.

(** Reading the [string] variable behind destination [i] after the call. *)
Definition string_at (ptrs : list (ptr Value)) (i : nat) : string :=
  match ptrs !! i with
  | Some (PString s) => s
  | _ => ""
  end.

Definition any_at (ptrs : list (ptr Value)) (i : nat) : any :=
  match ptrs !! i with
  | Some (PAny v) => v
  | _ => ANil
  end.

(** The type of the Go closures handed to [setFunction]. *)
Definition HostFunction : Type := FunctionCall → HostState → outcome * HostState.

(** [setFunction]: the closure stored in the VM under [name].  The result
    of [WithFields] is dropped in the source, so it has no effect. *)
Definition setFunction (name : string) (function : HostFunction)
  : FunctionCall → HostState → bridged Value * HostState :=
  λ call st,
    match function call st with
    | (Returned _ (Some err), st') => (BValue Null, Errorln err st')
    | (Returned result None, st') => (BValue (ToValue result), st')
    | (Panicked, st') => (BPanic, st')
    end.

Definition fetch : HostFunction := λ call st,
  let '(err, ps) :=
    parseArgs call [PString ""; PString ""; PString "GET"; PString ""] in
  match err with
  | Some e => (Returned ANil (Some e), st)
  | None =>
      let url := string_at ps 0 in
      let httpHeaders := string_at ps 1 in
      let method := string_at ps 2 in
      let payload := string_at ps 3 in
      match http_exchange method url httpHeaders payload with
      | inr e => (Returned ANil (Some e), st)
      | inl (status, body) =>
          (Returned (AMap (<["status" := AInt status]>
                             (<["body" := AString body]> ∅))) None, st)
      end
  end.

Definition getMeta : HostFunction := λ call st,
  let '(err, ps) := parseArgs call [PString ""] in
  match err with
  | Some e => (Returned ANil (Some e), st)
  | None =>
      let name := string_at ps 0 in
      match MetaGetMut (msgpart st) name with
      | Some result => (Returned (AString (IToString stringify result)) None, st)
      | None => (Returned ANil (Some (ErrorsNew "not found")), st)
      end
  end.

Definition setMeta : HostFunction := λ call st,
  let '(err, ps) := parseArgs call [PString ""; PString ""] in
  match err with
  | Some e => (Returned (AString "") (Some e), st)
  | None =>
      let name := string_at ps 0 in
      let value := string_at ps 1 in
      if bool_decide (value = "")
      then (Returned ANil None, with_msgpart (MetaDelete (msgpart st) name) st)
      else (Returned ANil None,
            with_msgpart (MetaSetMut (msgpart st) name (AString value)) st)
  end.

Definition setRoot : HostFunction := λ call st,
  let '(err, ps) := parseArgs call [PAny ANil] in
  match err with
  | Some e => (Returned ANil (Some e), st)
  | None =>
      let value := any_at ps 0 in
      (Returned ANil None, with_msgpart (SetStructured (msgpart st) value) st)
  end.

Definition getRoot : HostFunction := λ call st,
  let '(v, err) := AsStructuredMut (msgpart st) in (Returned v err, st).

Definition getCacheRes (caches : list string) : HostFunction := λ call st,
  let '(err, ps) := parseArgs call [PString ""; PString ""] in
  match err with
  | Some e => (Returned ANil (Some e), st)
  | None =>
      let cacheName := string_at ps 0 in
      let key := string_at ps 1 in
      if negb (cache_permitted caches cacheName false)
      then (Returned ANil (Some (ErrorsNew "not cache res")), st)
      else
        let '((_result, err), m) := AccessCache_Get (mgr st) cacheName key in
        match err with
        | None => (Returned (AString _result) None, with_mgr m st)
        | Some _ => (Returned ANil (Some (ErrorsNew "not found")), with_mgr m st)
        end
  end.

Definition setCacheRes (caches : list string) : HostFunction := λ call st,
  let '(err, ps) := parseArgs call [PString ""; PString ""; PString ""] in
  match err with
  | Some e => (Returned (AString "") (Some e), st)
  | None =>
      let cacheName := string_at ps 0 in
      let key := string_at ps 1 in
      let value := string_at ps 2 in
      if negb (cache_permitted caches cacheName false)
      then (Returned ANil (Some (ErrorsNew "not cache res")), st)
      else
        let '(err, m) := AccessCache_Set (mgr st) cacheName key value in
        match err with
        | Some _ => (Returned ANil (Some (ErrorsNew "not set")), with_mgr m st)
        | None => (Returned ANil None, with_mgr m st)
        end
  end.

Definition getCache (caches : list string) : HostFunction := λ call st,
  let '(err, ps) := parseArgs call [PString ""] in
  match err with
  | Some e => (Returned ANil (Some e), st)
  | None =>
      let key := string_at ps 0 in
      match caches with
      | [] => (Returned ANil (Some (ErrorsNew "not cache res")), st)
      | cacheName :: _ =>
          let '((_result, err), m) := AccessCache_Get (mgr st) cacheName key in
          match err with
          | None => (Returned (AString _result) None, with_mgr m st)
          | Some _ => (Returned ANil (Some (ErrorsNew "not found")), with_mgr m st)
          end
      end
  end.

Definition setCache (caches : list string) : HostFunction := λ call st,
  let '(err, ps) := parseArgs call [PString ""; PString ""] in
  match err with
  | Some e => (Returned (AString "") (Some e), st)
  | None =>
      let key := string_at ps 0 in
      let value := string_at ps 1 in
      match caches with
      | [] => (Returned ANil (Some (ErrorsNew "not cache res")), st)
      | cacheName :: _ =>
          let '(err, m) := AccessCache_Set (mgr st) cacheName key value in
          match err with
          | Some _ => (Returned ANil (Some (ErrorsNew "not set")), with_mgr m st)
          | None => (Returned ANil None, with_mgr m st)
          end
      end
  end.

(** Whether, at this call, the receiver of the channel at an index takes a
    transaction within the second of the [select]. *)
Variable receiver_ready : nat → bool.

(** [j] is [None] for the processor stage ([getVM] is handed [nil]) and
    [Some outputs] for the output stage, whose channels are
    [outputTSChans] of the state.  An index outside [outputTSChans] is
    Go's index panic. *)
Definition benthos_output (j : option (list string)) : HostFunction := λ call st,
  match j with
  | None => (Returned ANil (Some (ErrorsNew "run in processor")), st)
  | Some outputs =>
      let '(err, ps) := parseArgs call [PString ""; PString ""] in
      match err with
      | Some e => (Returned (AString "") (Some e), st)
      | None =>
          let resName := string_at ps 0 in
          let value := string_at ps 1 in
          let idx :=
            if bool_decide (0 < length outputs)
            then find_output 0 outputs resName (-1)
            else (-1)%Z in
          if bool_decide (idx < 0)%Z
          then (Returned ANil (Some (ErrorsNew "not output res")), st)
          else
            let i := Z.to_nat idx in
            match outputTSChans st !! i with
            | None => (Panicked, st)
            | Some c =>
                match select_send (receiver_ready i) c
                        (NewTransaction (QuickBatch [value]) None) with
                | Sent c' =>
                    (Returned ANil None, with_chans (<[i := c']> (outputTSChans st)) st)
                | TimedOut => (Returned ANil (Some (ErrorsNew "output timeout")), st)
                | SendPanic => (Panicked, st)
                end
            end
      end
  end.

(** The closures of [getVM], in registration order, before bridging. *)
Definition host_functions (caches : list string) (j : option (list string))
  : list (string * HostFunction) :=
  [ ("fetch", fetch);
    ("getMeta", getMeta);
    ("setMeta", setMeta);
    ("setRoot", setRoot);
    ("getRoot", getRoot);
    ("getCacheRes", getCacheRes caches);
    ("setCacheRes", setCacheRes caches);
    ("getCache", getCache caches);
    ("setCache", setCache caches);
    ("benthos_output", benthos_output j) ].

(** [getVM]: the functions the fresh VM holds, each set by [setFunction]. *)
Definition getVM (caches : list string) (j : option (list string))
  : list (string * (FunctionCall → HostState → bridged Value * HostState)) :=
  (λ nf, (nf.1, setFunction nf.1 nf.2)) <$> host_functions caches j.

(** A script's call of the global [name]. *)
Definition call_global (caches : list string) (j : option (list string))
    (name : string) (call : FunctionCall) (st : HostState)
  : option (bridged Value * HostState) :=
  match list_find (λ nf, nf.1 = name) (getVM caches j) with
  | Some (_, (_, f)) => Some (f call st)
  | None => None
  end.

End Bridge.


(** ** A model of the engine's primitive values

    Enough of goja's values to run the bridge on concrete calls: the
    conversions follow ECMAScript on these cases ([ToInteger] of a string
    reads a decimal numeral and is 0 on anything else). *)
Inductive JSValue : Type :=
  | JSUndefined
  | JSNull
  | JSBool (b : bool)
  | JSInt (z : Z)
  | JSFloat (f : float64)
  | JSString (s : string)
  | JSObject (a : any).

Definition digit_of (c : Ascii.ascii) : option Z :=
  let n := Z.of_N (Ascii.N_of_ascii c) in
  if bool_decide (48 ≤ n ≤ 57)%Z then Some (n - 48)%Z else None.

Fixpoint parse_decimal (s : string) (acc : Z) : option Z :=
  match s with
  | EmptyString => Some acc
  | String c rest =>
      match digit_of c with
      | Some d => parse_decimal rest (10 * acc + d)%Z
      | None => None
      end
  end.

Definition js_String (v : JSValue) : string :=
  match v with
  | JSUndefined => "undefined"
  | JSNull => "null"
  | JSBool b => if b then "true" else "false"
  | JSInt z => pretty z
  | JSFloat _ => "NaN"
  | JSString s => s
  | JSObject _ => "[object Object]"
  end.

Definition js_ToInteger (v : JSValue) : Z :=
  match v with
  | JSBool true => 1
  | JSInt z => z
  | JSString s => default 0%Z (parse_decimal s 0)
  | _ => 0
  end.

Definition js_ToFloat (v : JSValue) : float64 :=
  match v with
  | JSFloat f => f
  | JSUndefined | JSObject _ => S754_nan
  | _ => binary_normalize 53 1024 (js_ToInteger v) 0 false
  end.

Definition js_ToBoolean (v : JSValue) : bool :=
  match v with
  | JSUndefined | JSNull => false
  | JSBool b => b
  | JSInt z => negb (bool_decide (z = 0%Z))
  | JSFloat _ => true
  | JSString s => negb (bool_decide (s = ""))
  | JSObject _ => true
  end.

Definition js_Export (v : JSValue) : any :=
  match v with
  | JSUndefined | JSNull => ANil
  | JSBool b => ABool b
  | JSInt z => AInt z
  | JSFloat f => AFloat f
  | JSString s => AString s
  | JSObject a => a
  end.

Definition js_ToValue (a : any) : JSValue :=
  match a with
  | ANil => JSNull
  | ABool b => JSBool b
  | AInt z => JSInt z
  | AFloat f => JSFloat f
  | AString s => JSString s
  | ASlice _ | AMap _ => JSObject a
  end.

#[export] Instance JSValue_goja : GojaValue JSValue := {
  IsUndefined v := match v with JSUndefined => true | _ => false end;
  Null := JSNull;
  vString := js_String;
  ToInteger := js_ToInteger;
  ToFloat := js_ToFloat;
  ToBoolean := js_ToBoolean;
  Export := js_Export;
  ToValue := js_ToValue;
}.

(** Modelled from the spec: [getMapFromValue], [getSliceFromValue] and
    [getMapSliceFromValue] are not among the sources; the marshaller fails
    "if a supplied value cannot be converted into its corresponding
    destination's declared shape".  On the model values: the exported value
    has the shape, or the helper fails. *)
Definition js_getMapFromValue (v : JSValue) : gmap string any * option error :=
  match js_Export v with
  | AMap m => (m, None)
  | _ => (∅, Some (ErrorsNew "value is not of type map"))
  end.

Definition js_getSliceFromValue (v : JSValue) : list any * option error :=
  match js_Export v with
  | ASlice l => (l, None)
  | _ => ([], Some (ErrorsNew "value is not of type slice"))
  end.

Fixpoint all_maps (l : list any) : option (list (gmap string any)) :=
  match l with
  | [] => Some []
  | AMap m :: rest => cons m <$> all_maps rest
  | _ :: _ => None
  end.

Definition js_getMapSliceFromValue (v : JSValue) : list (gmap string any) * option error :=
  match js_Export v with
  | ASlice l =>
      match all_maps l with
      | Some ms => (ms, None)
      | None => ([], Some (ErrorsNew "value is not of type map slice"))
      end
  | _ => ([], Some (ErrorsNew "value is not of type map slice"))
  end.

Definition js_stringify (a : any) : string :=
  match a with
  | ANil => "null"
  | ABool b => if b then "true" else "false"
  | AInt z => pretty z
  | _ => ""
  end.

(** An HTTP collaborator without a network: every exchange is refused. *)
Definition no_network (method url headers payload : string) : (Z * string) + error :=
  inr (ErrExternal "http.DefaultClient.Do").

(** The declared shape of a destination against the shape of a model
    value: what "the value has the destination's shape" means. *)
Definition shape_matches (v : JSValue) (p : ptr JSValue) : bool :=
  match p, v with
  | PString _, JSString _ => true
  | PInt _, JSInt _ | PInt64 _, JSInt _ => true
  | PFloat64 _, JSFloat _ | PFloat64 _, JSInt _ => true
  | PBool _, JSBool _ => true
  | PMap _, JSObject (AMap _) => true
  | PSlice _, JSObject (ASlice _) => true
  | PMapSlice _, JSObject (ASlice l) => bool_decide (is_Some (all_maps l))
  | PValue _, _ | PAny _, _ => true
  | _, _ => false
  end.

(** The bridge on the model values. *)
Definition js_parseArgs : list JSValue → list (ptr JSValue) → option error * list (ptr JSValue) :=
  parseArgs js_getMapFromValue js_getSliceFromValue js_getMapSliceFromValue.

Definition js_call (ready : nat → bool) (caches : list string) (j : option (list string))
    (name : string) (call : list JSValue) (st : HostState)
  : option (bridged JSValue * HostState) :=
  call_global js_getMapFromValue js_getSliceFromValue js_getMapSliceFromValue
    js_stringify no_network ready caches j name call st.

Definition empty_part : Part := mkPart None ∅.
Definition empty_host : HostState := mkHost empty_part (mkManager ∅ []) [] [].
Definition host_with_meta : HostState :=
  mkHost (mkPart (Some (AString "body")) {["other" := AString "kept"]})
    (mkManager ∅ []) [] [].
Definition host_with_cache : HostState :=
  mkHost empty_part (mkManager {["c1" := ∅]} []) [] [].


(** ** Stage construction *)

Module processor.

(** [processor.JavaScriptConfig]. *)
Record JavaScriptConfig : Type := mkConfig {
  Code : string;
  File : string;
  CacheRes : list string;
  GlobalFolders : list string;
}.

Definition NewJavaScriptConfig : JavaScriptConfig := mkConfig "" "" [] [].

End processor.

Module output.

(** [output.JavaScriptConfig]. *)
Record JavaScriptConfig : Type := mkConfig {
  Code : string;
  File : string;
  CacheRes : list string;
  OutputRes : list string;
  GlobalFolders : list string;
}.

Definition NewJavaScriptConfig : JavaScriptConfig := mkConfig "" "" [] [] [].

End output.

Definition both_specified : error :=
  ErrorsNew "both 'code' and 'file' fields are specified but only one is allowed".
Definition neither_specified : error :=
  ErrorsNew "neither 'code' nor 'file' fields are specified but one of them is required".

(** Exactly one of the two fields is supplied. *)
Definition exactly_one (code file : string) : Prop :=
  (code ≠ "" ∧ file = "") ∨ (code = "" ∧ file ≠ "").

(** [javascriptProc], without the registry, logger and lock. *)
Record javascriptProc (Program : Type) : Type := mkProc {
  proc_program : Program;
  proc_caches : list string;
}.
Arguments mkProc {Program} _ _.
Arguments proc_program {Program} _.
Arguments proc_caches {Program} _.

(** [javascriptOutput] as the constructor leaves it, without the registry,
    logger and lock; [transactions] is [nil] and [shutSig] is new. *)
Record javascriptOutput (Program Streamed : Type) : Type := mkOutput {
  out_program : Program;
  out_caches : list string;
  out_outputs : list string;
  out_outputTSChans : list TSChan;
  out_outputStreams : list Streamed;
}.
Arguments mkOutput {Program Streamed} _ _ _ _ _.
Arguments out_program {Program Streamed} _.
Arguments out_caches {Program Streamed} _.
Arguments out_outputs {Program Streamed} _.
Arguments out_outputTSChans {Program Streamed} _.
Arguments out_outputStreams {Program Streamed} _.

Section Construction.
Context {Program Streamed : Type}.

(** The collaborators of the constructors: [os.ReadFile], [goja.Compile]
    on a file name and a source text, [mgr.NewOutput] on the configuration
    of type [resource] naming an output, and [Consume] of a created sink on
    its new channel. *)
Variable ReadFile : string → string + error.
Variable Compile : string → string → Program + error.
Variable NewOutput : string → Streamed + error.
Variable Consume : Streamed → option error.

(** From [filename := "main.js"] to the check of [goja.Compile]'s error,
    the same lines in both constructors. *)
Definition compile_source (code file : string) : Program + error :=
  let compile filename source :=
    match Compile filename source with
    | inr err => inr (ErrWrapped "failed to compile javascript code" err)
    | inl program => inl program
    end in
  if bool_decide (file ≠ "")
  then
    match ReadFile file with
    | inr err => inr (ErrWrapped "failed to open the file specifed in 'file' field" err)
    | inl codeBytes => compile file codeBytes
    end
  else compile "main.js" code.

Definition newJavaScript (conf : processor.JavaScriptConfig)
  : javascriptProc Program + error :=
  if bool_decide (processor.Code conf ≠ "" ∧ processor.File conf ≠ "")
  then inr both_specified
  else if bool_decide (processor.Code conf = "" ∧ processor.File conf = "")
  then inr neither_specified
  else
    match compile_source (processor.Code conf) (processor.File conf) with
    | inr err => inr err
    | inl program => inl (mkProc program (processor.CacheRes conf))
    end.

(** [for i := range outputStreams { ... mgr.NewOutput(outputConfs[i]) ... }] *)
Fixpoint new_outputs (outputRes : list string) : list Streamed + error :=
  match outputRes with
  | [] => inl []
  | name :: rest =>
      match NewOutput name with
      | inr err => inr err
      | inl _outStream =>
          match new_outputs rest with
          | inr err => inr err
          | inl streams => inl (_outStream :: streams)
          end
      end
  end.

(** [for i := range outputTSChans { ... outputStreams[i].Consume(outputTSChans[i]) ... }] *)
Fixpoint consume_all (outputStreams : list Streamed) : list TSChan + error :=
  match outputStreams with
  | [] => inl []
  | stream :: rest =>
      match Consume stream with
      | Some err => inr err
      | None =>
          match consume_all rest with
          | inr err => inr err
          | inl chans => inl (make_chan :: chans)
          end
      end
  end.

Definition newJavaScriptWriter (conf : output.JavaScriptConfig)
  : javascriptOutput Program Streamed + error :=
  if bool_decide (output.Code conf ≠ "" ∧ output.File conf ≠ "")
  then inr both_specified
  else if bool_decide (output.Code conf = "" ∧ output.File conf = "")
  then inr neither_specified
  else
    match new_outputs (output.OutputRes conf) with
    | inr err => inr err
    | inl outputStreams =>
        match consume_all outputStreams with
        | inr err => inr err
        | inl outputTSChans =>
            match compile_source (output.Code conf) (output.File conf) with
            | inr err => inr err
            | inl program =>
                inl (mkOutput program (output.CacheRes conf) (output.OutputRes conf)
                       outputTSChans outputStreams)
            end
        end
    end.

End Construction.

(** Collaborators for concrete runs: no file can be read, every source
    compiles to itself, and only the output named [good] can be created. *)
Definition fs_empty (path : string) : string + error := inr (ErrExternal "os.ReadFile").
Definition compile_any (filename source : string) : string + error := inl source.
Definition only_good (name : string) : string + error :=
  if bool_decide (name = "good") then inl name else inr (ErrExternal "mgr.NewOutput").
Definition consume_ok (stream : string) : option error := None.


(** ** The output stage's dispatch loop *)

(** Modelled from the spec: [shutdown.Signaller] is not among the sources;
    the spec gives a lifecycle "running, close-requested, closed" whose
    transitions are "monotonic and irreversible".  The two flags are what
    [CloseNowChan] / [ShouldCloseNow] and [HasClosedChan] observe. *)
Record Signaller : Type := mkSig {
  closeNow : bool;
  hasClosed : bool;
}.

Definition NewSignaller : Signaller := mkSig false false.
Definition CloseNow (s : Signaller) : Signaller := mkSig true (hasClosed s).
Definition ShutdownComplete (s : Signaller) : Signaller := mkSig (closeNow s) true.
Definition ShouldCloseNow (s : Signaller) : bool := closeNow s.

(** Modelled from the spec: an owned sink ([output.Streamed]) "exposes
    [TriggerCloseNow()] and a blocking [WaitForClose(context) -> error]":
    whether its close was triggered and whether it has closed.  Its
    [WaitForClose] returns [nil] once it has closed; that it returns an
    error instead is an event of the dispatch loop below. *)
Record Sink : Type := mkSink {
  sink_triggered : bool;
  sink_closed : bool;
}.

Definition sink_TriggerCloseNow (o : Sink) : Sink := mkSink true (sink_closed o).
Definition sink_close (o : Sink) : Sink := mkSink (sink_triggered o) true.

(** Go's [close(c)]: closing a channel that is already closed panics
    ([None]). *)
Definition close_chan (c : TSChan) : option TSChan :=
  if chan_closed c then None else Some (mkChan true (chan_taken c)).


(** Where the goroutine of [loop] stands.  [Crashed] is the panic of
    [close(c)] on a closed channel inside the deferred function: nothing
    recovers it, and the process ends with the goroutine. *)
Inductive PC : Type :=
  | AtLoopHead
  | AtSelect
  | AtAckWait
  | AtAckSelect
  | AtCloseChans (i : nat)
  | AtTriggerCloseNow (i : nat)
  | AtWaitForClose (i : nat)
  | AtShutdownComplete
  | Exited
  | Crashed.

(** The steps of the deferred shutdown sequence, as they complete.  The
    wait on a sink ends with its close confirmed ([o.WaitForClose] returned
    [nil]) or with an error, which [loop] discards. *)
Inductive Action : Type :=
  | AckWaitDone
  | ChanClosed (i : nat)
  | SinkTriggered (i : nat)
  | SinkCloseConfirmed (i : nat)
  | SinkWaitFailed (i : nat)
  | StageClosed.

(** The goroutine of [loop] with what it shares with the rest of the
    stage: its local [ackPending], the stage's [shutSig], [outputTSChans]
    and [outputStreams], and the actions done so far, oldest first. *)
Record LoopState : Type := mkLoop {
  pc : PC;
  ackPending : Z;
  shutSig : Signaller;
  chans : list TSChan;
  sinks : list Sink;
  done_actions : list Action;
}.

(** What happens next: the goroutine runs ([Run]), its [select] takes a
    transaction or sees the upstream channel closed, the 100ms timer of the
    drain wait fires, the call of [o.WaitForClose] it is blocked in returns
    an error ([WaitFails]), or something else acts on the shared state: a
    call of [TriggerCloseNow] on the stage, a sink finishing its close, the
    [select] of a [benthos_output] call sending on a channel.  Nothing can
    send on [ackInterruptChan], which never leaves [loop]. *)
Inductive Event : Type :=
  | Run
  | Upstream (t : Transaction)
  | UpstreamClosed
  | Tick
  | StageTriggerCloseNow
  | SinkCloses (i : nat)
  | ScriptSend (i : nat) (value : string)
  | WaitFails.

Definition set_pc (p : PC) (s : LoopState) : LoopState :=
  mkLoop p (ackPending s) (shutSig s) (chans s) (sinks s) (done_actions s).
Definition did (a : Action) (s : LoopState) : LoopState :=
  mkLoop (pc s) (ackPending s) (shutSig s) (chans s) (sinks s) (done_actions s ++ [a]).
Definition set_shutSig (g : Signaller) (s : LoopState) : LoopState :=
  mkLoop (pc s) (ackPending s) g (chans s) (sinks s) (done_actions s).
Definition set_chans (cs : list TSChan) (s : LoopState) : LoopState :=
  mkLoop (pc s) (ackPending s) (shutSig s) cs (sinks s) (done_actions s).
Definition set_sinks (os : list Sink) (s : LoopState) : LoopState :=
  mkLoop (pc s) (ackPending s) (shutSig s) (chans s) os (done_actions s).

(** One step of the goroutine when it is scheduled with [ev] one of [Run],
    [Upstream], [UpstreamClosed], [Tick], [WaitFails].  A state it returns
    unchanged is a blocked (or finished) goroutine. *)
Definition goroutine_step (ev : Event) (s : LoopState) : LoopState :=
  match pc s with
  | AtLoopHead =>
      (* for !j.shutSig.ShouldCloseNow() *)
      match ev with
      | Run => if ShouldCloseNow (shutSig s) then set_pc AtAckWait s else set_pc AtSelect s
      | _ => s
      end
  | AtSelect =>
      match ev with
      | Upstream _ => set_pc AtLoopHead s
      | UpstreamClosed => set_pc AtAckWait s
      | Run => if closeNow (shutSig s) then set_pc AtAckWait s else s
      | _ => s
      end
  | AtAckWait =>
      (* for atomic.LoadInt64(&ackPending) > 0 *)
      match ev with
      | Run =>
          if bool_decide (ackPending s > 0)%Z then set_pc AtAckSelect s
          else set_pc (AtCloseChans 0) (did AckWaitDone s)
      | _ => s
      end
  | AtAckSelect =>
      match ev with
      | Tick => set_pc AtAckWait s
      | Run =>
          if closeNow (shutSig s) then set_pc (AtCloseChans 0) (did AckWaitDone s) else s
      | _ => s
      end
  | AtCloseChans i =>
      (* for _, c := range j.outputTSChans { close(c) } *)
      match ev with
      | Run =>
          match chans s !! i with
          | Some c =>
              match close_chan c with
              | Some c' =>
                  set_pc (AtCloseChans (S i))
                    (did (ChanClosed i) (set_chans (<[i := c']> (chans s)) s))
              | None => set_pc Crashed s
              end
          | None => set_pc (AtTriggerCloseNow 0) s
          end
      | _ => s
      end
  | AtTriggerCloseNow i =>
      (* for _, o := range j.outputStreams { o.TriggerCloseNow() } *)
      match ev with
      | Run =>
          match sinks s !! i with
          | Some o =>
              set_pc (AtTriggerCloseNow (S i))
                (did (SinkTriggered i)
                   (set_sinks (<[i := sink_TriggerCloseNow o]> (sinks s)) s))
          | None => set_pc (AtWaitForClose 0) s
          end
      | _ => s
      end
  | AtWaitForClose i =>
      (* if err := o.WaitForClose(context.Background()); err != nil { } *)
      match ev with
      | Run =>
          match sinks s !! i with
          | Some o =>
              if sink_closed o
              then set_pc (AtWaitForClose (S i)) (did (SinkCloseConfirmed i) s)
              else s
          | None => set_pc AtShutdownComplete s
          end
      | WaitFails =>
          match sinks s !! i with
          | Some o => set_pc (AtWaitForClose (S i)) (did (SinkWaitFailed i) s)
          | None => s
          end
      | _ => s
      end
  | AtShutdownComplete =>
      match ev with
      | Run => set_pc Exited (did StageClosed (set_shutSig (ShutdownComplete (shutSig s)) s))
      | _ => s
      end
  | Exited => s
  | Crashed => s
  end.

(** What one event does to a stage whose goroutine has not panicked. *)
Definition stage_step (ev : Event) (s : LoopState) : LoopState :=
  match ev with
  | StageTriggerCloseNow => set_shutSig (CloseNow (shutSig s)) s
  | SinkCloses i =>
      match sinks s !! i with
      | Some o => set_sinks (<[i := sink_close o]> (sinks s)) s
      | None => s
      end
  | ScriptSend i value =>
      match chans s !! i with
      | Some c =>
          match select_send true c (NewTransaction (QuickBatch [value]) None) with
          | Sent c' => set_chans (<[i := c']> (chans s)) s
          | _ => s
          end
      | None => s
      end
  | _ => goroutine_step ev s
  end.

(** One step of the stage around the goroutine.  Once the goroutine has
    panicked the process is gone and nothing happens any more. *)
Definition step (ev : Event) (s : LoopState) : LoopState :=
  match pc s with
  | Crashed => s
  | _ => stage_step ev s
  end.

Definition run (evs : list Event) (s : LoopState) : LoopState :=
  foldl (λ s ev, step ev s) s evs.

(** The state in which [Consume] starts the goroutine: [var ackPending
    int64] is zero and nothing of the shutdown sequence is done; the
    signaller has not completed, since only that sequence completes it. *)
Definition loop_start (sig : Signaller) (cs : list TSChan) (os : list Sink) : LoopState :=
  mkLoop AtLoopHead 0 (mkSig (closeNow sig) false) cs os [].

(** The states the stage can be in after [Consume]. *)
Definition reachable (s : LoopState) : Prop :=
  ∃ sig cs os evs, s = run evs (loop_start sig cs os).


(** How the wait on sink [k] ended, [failed k] telling whether its
    [WaitForClose] returned an error. *)
Definition wait_outcome (failed : nat → bool) (k : nat) : Action :=
  if failed k then SinkWaitFailed k else SinkCloseConfirmed k.

(** The whole shutdown sequence in order, for [n] channels and [m] sinks. *)
Definition shutdown_sequence (failed : nat → bool) (n m : nat) : list Action :=
  [AckWaitDone] ++ (ChanClosed <$> seq 0 n) ++ (SinkTriggered <$> seq 0 m)
  ++ (wait_outcome failed <$> seq 0 m) ++ [StageClosed].

(** Events that carry a stage with [n] channels and [m] sinks from the
    start through the close of the upstream channel to the end: every sink
    closes once triggered. *)
Definition orderly_shutdown (n m : nat) : list Event :=
  [Run; UpstreamClosed; Run] ++ replicate (S n) Run ++ replicate (S m) Run
  ++ (SinkCloses <$> seq 0 m) ++ replicate (S m) Run ++ [Run].


(** Every channel before index [k] is closed; every channel from index [k]
    on is open; every sink before index [k] has closed, has been triggered,
    has closed unless its wait failed. *)
Definition closed_upto (k : nat) (cs : list TSChan) : Prop :=
  ∀ i c, i < k → cs !! i = Some c → chan_closed c = true.
Definition triggered_upto (k : nat) (os : list Sink) : Prop :=
  ∀ i o, i < k → os !! i = Some o → sink_triggered o = true.
Definition confirmed_upto (failed : nat → bool) (k : nat) (os : list Sink) : Prop :=
  ∀ i o, i < k → os !! i = Some o → failed i = false → sink_closed o = true.

(** What holds of the channels, the sinks and the actions done while the
    goroutine stands at [p]. *)
Definition phase_inv (p : PC) (cs : list TSChan) (os : list Sink) (d : list Action) : Prop :=
  let n := length cs in
  let m := length os in
  match p with
  | AtLoopHead | AtSelect | AtAckWait => d = []
  | AtAckSelect => False
  | AtCloseChans i =>
      i ≤ n ∧ closed_upto i cs ∧ d = [AckWaitDone] ++ (ChanClosed <$> seq 0 i)
  | AtTriggerCloseNow i =>
      i ≤ m ∧ closed_upto n cs ∧ triggered_upto i os
      ∧ d = [AckWaitDone] ++ (ChanClosed <$> seq 0 n) ++ (SinkTriggered <$> seq 0 i)
  | AtWaitForClose i =>
      i ≤ m ∧ closed_upto n cs ∧ triggered_upto m os
      ∧ ∃ failed,
          confirmed_upto failed i os
          ∧ d = [AckWaitDone] ++ (ChanClosed <$> seq 0 n) ++ (SinkTriggered <$> seq 0 m)
                ++ (wait_outcome failed <$> seq 0 i)
  | AtShutdownComplete =>
      closed_upto n cs ∧ triggered_upto m os
      ∧ ∃ failed,
          confirmed_upto failed m os
          ∧ d = [AckWaitDone] ++ (ChanClosed <$> seq 0 n) ++ (SinkTriggered <$> seq 0 m)
                ++ (wait_outcome failed <$> seq 0 m)
  | Exited =>
      closed_upto n cs ∧ triggered_upto m os
      ∧ ∃ failed, confirmed_upto failed m os ∧ d = shutdown_sequence failed n m
  | Crashed =>
      ∃ i, i < n ∧ closed_upto (S i) cs ∧ d = [AckWaitDone] ++ (ChanClosed <$> seq 0 i)
  end.

(** The invariant of the stage after [Consume]. *)
Definition loop_inv (s : LoopState) : Prop :=
  ackPending s = 0%Z
  ∧ (hasClosed (shutSig s) = true ↔ pc s = Exited)
  ∧ phase_inv (pc s) (chans s) (sinks s) (done_actions s).




(** ** Running a program on a message *)

(** A compiled program as the bridge sees it run: it ends, it ends with an
    uncaught exception, or it calls one of its globals and goes on with the
    value the call returns.  What a program computes between two calls is
    in the continuation; [console] and [require], which reach the logger
    and the module registry only, are not among the nodes. *)
Inductive Script (Value : Type) : Type :=
  | Finish
  | Throw (e : error)
  | CallGlobal (name : string) (call : list Value) (k : Value → Script Value).

Arguments Finish {Value}.
Arguments Throw {Value} e.
Arguments CallGlobal {Value} name call k.

(** How [vm.RunProgram] ends: with no error, with the error of an
    uncaught exception, or in the Go panic of a host function. *)
Inductive RunResult : Type :=
  | RunOk
  | RunError (e : error)
  | RunPanic.

(** A program that never ends in an exception of its own; [names] are the
    globals it may call. *)
Inductive never_throws {Value : Type} (names : list string) : Script Value → Prop :=
  | never_throws_Finish : never_throws names Finish
  | never_throws_Call name call k :
      name ∈ names → (∀ v, never_throws names (k v)) →
      never_throws names (CallGlobal name call k).

(** The names [getVM] sets. *)
Definition global_names : list string :=
  ["fetch"; "getMeta"; "setMeta"; "setRoot"; "getRoot"; "getCacheRes"; "setCacheRes";
   "getCache"; "setCache"; "benthos_output"].

(** What [Process] hands back: the parts and a nil error, or nil and the
    error; or the panic passes through it. *)
Inductive ProcessResult : Type :=
  | Processed (parts : list Part)
  | ProcessError (e : error)
  | ProcessPanic.

(** The resource a cache access names. *)
Definition access_resource (a : CacheAccess) : string :=
  match a with
  | CacheGet resource _ => resource
  | CacheSet resource _ _ => resource
  end.

Section Execution.
Context {Value : Type} `{!GojaValue Value}.
Variable getMapFromValue : Value → gmap string any * option error.
Variable getSliceFromValue : Value → list any * option error.
Variable getMapSliceFromValue : Value → list (gmap string any) * option error.
Variable stringify : any → string.
Variable http_exchange : string → string → string → string → (Z * string) + error.
Variable receiver_ready : nat → bool.

(** [vm.RunProgram(program)] on the VM that [getVM] built.  A call of a
    name that is no global of the VM is the engine's reference error, an
    exception of the program. *)
Fixpoint RunProgram (caches : list string) (j : option (list string))
    (program : Script Value) (st : HostState) : RunResult * HostState :=
  match program with
  | Finish => (RunOk, st)
  | Throw e => (RunError e, st)
  | CallGlobal name call k =>
      match call_global getMapFromValue getSliceFromValue getMapSliceFromValue
              stringify http_exchange receiver_ready caches j name call st with
      | Some (BValue v, st') => RunProgram caches j (k v) st'
      | Some (BPanic, st') => (RunPanic, st')
      | None => (RunError (ErrExternal "ReferenceError"), st)
      end
  end.

(** [javascriptProc.Process] on the message of the state, under the lock:
    [getVM] is handed [nil] for the output stage. *)
Definition Process (caches : list string) (program : Script Value) (st : HostState)
  : ProcessResult * HostState :=
  match RunProgram caches None program st with
  | (RunOk, st') => (Processed [msgpart st'], st')
  | (RunError err, st') => (ProcessError err, st')
  | (RunPanic, st') => (ProcessPanic, st')
  end.

(** The function [WriteBatch] hands to [output.IterateBatchedSend], on one
    message of the batch: [getVM] is handed the stage, and the error of
    [RunProgram] is returned. *)
Definition WriteBatch_part (caches outputs : list string) (program : Script Value)
    (st : HostState) : RunResult * HostState :=
  RunProgram caches (Some outputs) program st.

(** Successive runs of that function, one per message of [parts], each on
    the state the run before left: the results in order, and the state
    after the last. *)
Fixpoint run_parts (caches outputs : list string) (program : Script Value)
    (parts : list Part) (st : HostState) : list RunResult * HostState :=
  match parts with
  | [] => ([], st)
  | part :: rest =>
      let '(r, st') := WriteBatch_part caches outputs program (with_msgpart part st) in
      let '(rs, st'') := run_parts caches outputs program rest st' in
      (r :: rs, st'')
  end.

End Execution.

(** The bridge's runs on the model values. *)
Definition js_Process (caches : list string) (program : Script JSValue) (st : HostState)
  : ProcessResult * HostState :=
  Process js_getMapFromValue js_getSliceFromValue js_getMapSliceFromValue
    js_stringify no_network (λ _, true) caches program st.

Definition js_WriteBatch_part (ready : nat → bool) (caches outputs : list string)
    (program : Script JSValue) (st : HostState) : RunResult * HostState :=
  WriteBatch_part js_getMapFromValue js_getSliceFromValue js_getMapSliceFromValue
    js_stringify no_network ready caches outputs program st.

(** ** Starting the dispatch loop *)

(** What [Consume] reads and writes of the stage: the upstream channel
    ([None] is Go's [nil], as the constructor leaves it) and the goroutines
    of [loop] started so far. *)
Record ConsumeState : Type := mkConsume {
  transactions : option nat;
  loops_started : nat;
}.

Definition ErrAlreadyStarted : error := ErrExternal "component.ErrAlreadyStarted".

(** [javascriptOutput.Consume]. *)
Definition javascriptOutput_Consume (j : ConsumeState) (upstream : option nat)
  : option error * ConsumeState :=
  match transactions j with
  | Some _ => (Some ErrAlreadyStarted, j)
  | None => (None, mkConsume upstream (S (loops_started j)))
  end.

(** Successive calls of [Consume]: the errors returned and the stage after
    the last. *)
Fixpoint Consume_all (j : ConsumeState) (upstreams : list (option nat))
  : list (option error) * ConsumeState :=
  match upstreams with
  | [] => ([], j)
  | u :: rest =>
      let '(err, j') := javascriptOutput_Consume j u in
      let '(errs, j'') := Consume_all j' rest in
      (err :: errs, j'')
  end.

(** A destination whose case in the [switch] of [parseArgs] cannot fail. *)
Definition infallible {Value : Type} (p : ptr Value) : bool :=
  match p with
  | PMap _ | PSlice _ | PMapSlice _ | PUnhandled => false
  | _ => true
  end.



(** ** What a run may do to the caches and the channels *)

(** The accesses made from [st] to [st'] all name a cache of [caches]. *)
Definition accesses_within (caches : list string) (st st' : HostState) : Prop :=
  ∃ new, accesses (mgr st') = new ++ accesses (mgr st)
         ∧ Forall (λ a, access_resource a ∈ caches) new.

(** What the caches outside [caches] hold is the same in [st'] as in [st]. *)
Definition others_untouched (caches : list string) (st st' : HostState) : Prop :=
  ∀ n, n ∉ caches → resources (mgr st') !! n = resources (mgr st) !! n.

(** A transaction as [benthos_output] builds it: one message, no
    acknowledgement callback. *)
Definition script_transaction (t : Transaction) : Prop :=
  Ack t = None ∧ ∃ m, Payload t = [m].

(** Channel by channel, [cs'] is [cs] with such transactions taken in
    addition and nothing closed or opened. *)
Definition chans_grow (cs cs' : list TSChan) : Prop :=
  Forall2 (λ c c', chan_closed c' = chan_closed c
                   ∧ ∃ new, chan_taken c' = new ++ chan_taken c
                            ∧ Forall script_transaction new) cs cs'.

(** The channels of a stage as its constructor leaves them and as they
    stay until the dispatch loop shuts down: one per output, none closed. *)
Definition chans_ok (outputs : list string) (cs : list TSChan) : Prop :=
  length cs = length outputs ∧ Forall (λ c, chan_closed c = false) cs.





(** What one host function may do: its accesses name configured caches,
    the other caches keep what they hold, the channels only grow (and stay
    as they are when there is no output stage), and it does not panic
    while the stage's channels are in order. *)
Definition body_footprint (caches : list string) (j : option (list string))
    (st : HostState) (r : outcome * HostState) : Prop :=
  accesses_within caches st r.2
  ∧ others_untouched caches st r.2
  ∧ chans_grow (outputTSChans st) (outputTSChans r.2)
  ∧ (j = None → outputTSChans r.2 = outputTSChans st)
  ∧ (match j with
     | None => True
     | Some outputs => chans_ok outputs (outputTSChans st)
     end → r.1 ≠ Panicked).

(** A program none of whose calls is of the global [name]. *)
Inductive never_calls {Value : Type} (name : string) : Script Value → Prop :=
  | never_calls_Finish : never_calls name Finish
  | never_calls_Throw e : never_calls name (Throw e)
  | never_calls_Call n call k :
      n ≠ name → (∀ v, never_calls name (k v)) →
      never_calls name (CallGlobal n call k).

(** Events that ask the loop to stop: the upstream channel closes, or
    [TriggerCloseNow] is called on the stage. *)
Definition asks_to_stop (ev : Event) : bool :=
  match ev with
  | UpstreamClosed | StageTriggerCloseNow => true
  | _ => false
  end.


(** A program for concrete runs: it reads a metadata key, whatever the
    outcome sends a message to the sink [good], and ends. *)
Definition sample_program : Script JSValue :=
  CallGlobal "getMeta" [JSString "missing"]
    (λ _, CallGlobal "benthos_output" [JSString "good"; JSString "m"] (λ _, Finish)).

(** A compiler for concrete runs: every source compiles to [sample_program]. *)
Definition compile_sample (filename source : string) : Script JSValue + error :=
  inl sample_program.


(** * Properties *)

(** ** The argument marshaller *)

Section MarshallerFacts.
Context {Value : Type} `{!GojaValue Value}.
Variable getMapFromValue : Value → gmap string any * option error.
Variable getSliceFromValue : Value → list any * option error.
Variable getMapSliceFromValue : Value → list (gmap string any) * option error.

Local Abbreviation assign' := (assign getMapFromValue getSliceFromValue getMapSliceFromValue).
Local Abbreviation parseArgs_from' :=
  (parseArgs_from getMapFromValue getSliceFromValue getMapSliceFromValue).
Local Abbreviation parseArgs' :=
  (parseArgs getMapFromValue getSliceFromValue getMapSliceFromValue).

Lemma parseArgs_from_beyond (args : list Value) :
  ∀ (i : nat) (ptrs : list (ptr Value)) (k : nat),
    length args ≤ k → (parseArgs_from' i args ptrs).2 !! k = ptrs !! k.
Proof.
  induction args as [|arg args IH]; intros i ptrs k Hk; simpl.
  - done.
  - destruct ptrs as [|p ptrs]; simpl in *.
    + by rewrite lookup_nil.
    + destruct (IsUndefined arg); [done|].
      destruct (assign' i arg p) as [p' [e|]] eqn:Ha; simpl.
      * destruct k; [lia|done].
      * destruct (parseArgs_from' (S i) args ptrs) as [e rest] eqn:Hr; simpl.
        destruct k as [|k]; [lia|]. simpl.
        specialize (IH (S i) ptrs k). rewrite Hr in IH. apply IH. lia.
Qed.

Lemma parseArgs_from_length (args : list Value) :
  ∀ (i : nat) (ptrs : list (ptr Value)),
    length args ≤ length ptrs → length (parseArgs_from' i args ptrs).2 = length ptrs.
Proof.
  induction args as [|arg args IH]; intros i ptrs Hl; simpl; [done|].
  destruct ptrs as [|p ptrs]; simpl in *; [lia|].
  destruct (IsUndefined arg); [done|].
  destruct (assign' i arg p) as [p' [e|]]; simpl; [done|].
  destruct (parseArgs_from' (S i) args ptrs) as [e rest] eqn:Hr; simpl.
  specialize (IH (S i) ptrs). rewrite Hr in IH. simpl in IH. rewrite IH; [done|lia].
Qed.

Lemma parseArgs_from_undefined (args : list Value) :
  ∀ (i : nat) (ptrs : list (ptr Value)),
    (∃ arg, arg ∈ args ∧ IsUndefined arg = true) →
    is_Some (parseArgs_from' i args ptrs).1.
Proof.
  induction args as [|arg args IH]; intros i ptrs (a & Hin & Hu).
  - by apply not_elem_of_nil in Hin.
  - simpl. destruct ptrs as [|p ptrs]; [by eexists|].
    destruct (IsUndefined arg) eqn:Harg; [by eexists|].
    destruct (assign' i arg p) as [p' [e|]]; simpl; [by eexists|].
    destruct (parseArgs_from' (S i) args ptrs) as [e rest] eqn:Hr; simpl.
    apply elem_of_cons in Hin as [->|Hin]; [congruence|].
    specialize (IH (S i) ptrs). rewrite Hr in IH. apply IH. eauto.
Qed.

(** C4 -- [parseArgs] fails when the call has more arguments than there are
    destinations, fails when any supplied argument is the engine's
    undefined value, and never touches a destination beyond the supplied
    arguments: the defaults a host function put there survive, as the
    method [GET] of [fetch] does in a call with the url alone. *)
Theorem parseArgs_contract (call : list Value) (ptrs : list (ptr Value)) :
  (length ptrs < length call →
     parseArgs' call ptrs
     = (Some (ErrTooManyArguments (length call) (length ptrs)), ptrs))
  ∧ ((∃ arg, arg ∈ call ∧ IsUndefined arg = true) → is_Some (parseArgs' call ptrs).1)
  ∧ (∀ k, length call ≤ k → (parseArgs' call ptrs).2 !! k = ptrs !! k)
  ∧ length (parseArgs' call ptrs).2 = length ptrs
  ∧ (∀ url, IsUndefined url = false →
       parseArgs' [url] [PString ""; PString ""; PString "GET"; PString ""]
       = (None, [PString (vString url); PString ""; PString "GET"; PString ""])).
Proof.
  unfold parseArgs. repeat split.
  - intros Hlt. by rewrite bool_decide_eq_true_2.
  - intros Hu. case_bool_decide; [by eexists|]. by apply parseArgs_from_undefined.
  - intros k Hk. case_bool_decide; [done|]. by apply parseArgs_from_beyond.
  - case_bool_decide; [done|]. apply parseArgs_from_length. lia.
  - intros url Hu. simpl. by rewrite Hu.
Qed.

(** C5 (amended) -- a supplied argument that is not undefined is never
    rejected by a string, integer, float, boolean or opaque destination:
    the destination receives the engine's own conversion of the value,
    whatever its shape.  Only a map or slice destination can fail, and it
    does so exactly when its helper reports an error; a destination of a
    type the marshaller does not know always fails. *)
Theorem parseArgs_converts (arg : Value) :
  IsUndefined arg = false →
  (∀ d, parseArgs' [arg] [PString d] = (None, [PString (vString arg)]))
  ∧ (∀ d, parseArgs' [arg] [PInt d] = (None, [PInt (ToInteger arg)]))
  ∧ (∀ d, parseArgs' [arg] [PInt64 d] = (None, [PInt64 (ToInteger arg)]))
  ∧ (∀ d, parseArgs' [arg] [PFloat64 d] = (None, [PFloat64 (ToFloat arg)]))
  ∧ (∀ d, parseArgs' [arg] [PBool d] = (None, [PBool (ToBoolean arg)]))
  ∧ (∀ d, parseArgs' [arg] [PValue d] = (None, [PValue (Some arg)]))
  ∧ (∀ d, parseArgs' [arg] [PAny d] = (None, [PAny (Export arg)]))
  ∧ (∀ d, (parseArgs' [arg] [PMap d]).1 = wrap_parse_error 0 (getMapFromValue arg).2)
  ∧ (∀ d, (parseArgs' [arg] [PSlice d]).1 = wrap_parse_error 0 (getSliceFromValue arg).2)
  ∧ (∀ d, (parseArgs' [arg] [PMapSlice d]).1
          = wrap_parse_error 0 (getMapSliceFromValue arg).2)
  ∧ parseArgs' [arg] [PUnhandled] = (Some (ErrUnhandledType 0), [PUnhandled]).
Proof.
  intros Ha. unfold parseArgs. simpl. rewrite Ha.
  repeat split; try done; intros d.
  - destruct (getMapFromValue arg) as [m [e|]]; done.
  - destruct (getSliceFromValue arg) as [m [e|]]; done.
  - destruct (getMapSliceFromValue arg) as [m [e|]]; done.
Qed.

End MarshallerFacts.


(** ** The host functions behind the bridge *)

Lemma cache_permitted_spec (caches : list string) (cacheName : string) :
  ∀ isOK, cache_permitted caches cacheName isOK = isOK || bool_decide (cacheName ∈ caches).
Proof.
  induction caches as [|c caches IH]; intros isOK; cbn [cache_permitted].
  - rewrite bool_decide_eq_false_2; [by rewrite orb_false_r|]. apply not_elem_of_nil.
  - rewrite IH. destruct (decide (c = cacheName)) as [->|Hc].
    + rewrite (bool_decide_eq_true_2 (cacheName = cacheName)) by done.
      rewrite (bool_decide_eq_true_2 (cacheName ∈ cacheName :: caches)).
      * by rewrite orb_true_r.
      * apply elem_of_cons. by left.
    + rewrite (bool_decide_eq_false_2 (c = cacheName)) by done.
      f_equal. apply bool_decide_ext. rewrite elem_of_cons.
      split; [by right|]. intros [Heq|Hin]; [by subst|done].
Qed.

Lemma cache_not_permitted (caches : list string) (cacheName : string) :
  cacheName ∉ caches → negb (cache_permitted caches cacheName false) = true.
Proof.
  intros Hn. rewrite cache_permitted_spec. simpl. by rewrite bool_decide_eq_false_2.
Qed.

Lemma find_output_spec (resName : string) (outputs : list string) :
  ∀ (i : nat) (idx : Z),
    ((resName ∉ outputs) ∧ find_output i outputs resName idx = idx)
    ∨ (∃ k, outputs !! k = Some resName
            ∧ find_output i outputs resName idx = Z.of_nat (i + k)).
Proof.
  induction outputs as [|o outputs IH]; intros i idx; cbn [find_output].
  - left. split; [apply not_elem_of_nil|done].
  - destruct (IH (S i) (if bool_decide (resName = o) then Z.of_nat i else idx))
      as [[Hn Heq]|(k & Hk & Heq)].
    + case_bool_decide as Ho.
      * right. exists 0. subst o. split; [done|]. rewrite Heq. f_equal. lia.
      * left. split; [|done]. rewrite not_elem_of_cons. done.
    + right. exists (S k). split; [done|]. rewrite Heq. f_equal. lia.
Qed.

Section HostFacts.
Context {Value : Type} `{!GojaValue Value}.
Variable getMapFromValue : Value → gmap string any * option error.
Variable getSliceFromValue : Value → list any * option error.
Variable getMapSliceFromValue : Value → list (gmap string any) * option error.
Variable stringify : any → string.
Variable http_exchange : string → string → string → string → (Z * string) + error.
Variable receiver_ready : nat → bool.

Local Abbreviation parseArgs' :=
  (parseArgs getMapFromValue getSliceFromValue getMapSliceFromValue).
Local Abbreviation getMeta' :=
  (getMeta getMapFromValue getSliceFromValue getMapSliceFromValue stringify).
Local Abbreviation setMeta' :=
  (setMeta getMapFromValue getSliceFromValue getMapSliceFromValue).
Local Abbreviation getCacheRes' :=
  (getCacheRes getMapFromValue getSliceFromValue getMapSliceFromValue).
Local Abbreviation setCacheRes' :=
  (setCacheRes getMapFromValue getSliceFromValue getMapSliceFromValue).
Local Abbreviation benthos_output' :=
  (benthos_output getMapFromValue getSliceFromValue getMapSliceFromValue receiver_ready).
Local Abbreviation host_functions' :=
  (host_functions getMapFromValue getSliceFromValue getMapSliceFromValue
     stringify http_exchange receiver_ready).
Local Abbreviation getVM' :=
  (getVM getMapFromValue getSliceFromValue getMapSliceFromValue
     stringify http_exchange receiver_ready).

Lemma setFunction_error (name : string) (function : HostFunction)
    (call : list Value) (st st' : HostState) (result : any) (err : error) :
  function call st = (Returned result (Some err), st') →
  setFunction name function call st = (BValue Null, Errorln err st').
Proof. intros Hf. unfold setFunction. by rewrite Hf. Qed.

(** C1 -- every function that [getVM] registers is a host function's body
    behind [setFunction]; and whenever a body behind [setFunction] returns
    an error, the script gets [null] as the value of the call (not a panic
    passed on: the script goes on) and the error is written to the logger,
    on top of the state the body left. *)
Theorem host_error_returns_null (caches : list string) (j : option (list string)) :
  (∀ name f, (name, f) ∈ getVM' caches j →
     ∃ body : HostFunction,
       (name, body) ∈ host_functions' caches j ∧ f = setFunction name body)
  ∧ (∀ name (body : HostFunction) call st result err st',
       body call st = (Returned result (Some err), st') →
       setFunction name body call st = (BValue Null, Errorln err st')
       ∧ logger (setFunction name body call st).2 = LogError err :: logger st').
Proof.
  split.
  - unfold getVM. intros name f Hin.
    apply list_elem_of_fmap in Hin as ([n body] & Heq & Hin). simpl in Heq.
    inversion Heq; subst. by exists body.
  - intros name body call st result err st' Hb.
    rewrite (setFunction_error name body call st st' result err Hb). done.
Qed.

(** C3 -- a call of [getCacheRes] or [setCacheRes] whose resource name is
    not in [caches] returns an error and leaves the whole state, the cache
    manager and its record of accesses included, as it was: no backend is
    touched.  The error is "not cache res" whenever the arguments marshal
    (otherwise it is the marshaller's), and the script gets [null]. *)
Theorem cache_res_not_permitted (caches : list string) (call : list Value) (st : HostState) :
  (string_at (parseArgs' call [PString ""; PString ""]).2 0 ∉ caches →
     ∃ result err,
       getCacheRes' caches call st = (Returned result (Some err), st)
       ∧ ((parseArgs' call [PString ""; PString ""]).1 = None →
            err = ErrorsNew "not cache res")
       ∧ setFunction "getCacheRes" (getCacheRes' caches) call st
         = (BValue Null, Errorln err st)
       ∧ accesses (mgr (Errorln err st)) = accesses (mgr st))
  ∧ (string_at (parseArgs' call [PString ""; PString ""; PString ""]).2 0 ∉ caches →
     ∃ result err,
       setCacheRes' caches call st = (Returned result (Some err), st)
       ∧ ((parseArgs' call [PString ""; PString ""; PString ""]).1 = None →
            err = ErrorsNew "not cache res")
       ∧ setFunction "setCacheRes" (setCacheRes' caches) call st
         = (BValue Null, Errorln err st)
       ∧ accesses (mgr (Errorln err st)) = accesses (mgr st)).
Proof.
  split; intros Hn.
  - unfold setFunction, getCacheRes.
    destruct (parseArgs' call [PString ""; PString ""]) as [[e|] ps]; simpl in *.
    + exists ANil, e. repeat split; done.
    + rewrite (cache_not_permitted _ _ Hn).
      exists ANil, (ErrorsNew "not cache res"). repeat split; done.
  - unfold setFunction, setCacheRes.
    destruct (parseArgs' call [PString ""; PString ""; PString ""]) as [[e|] ps]; simpl in *.
    + exists (AString ""), e. repeat split; done.
    + rewrite (cache_not_permitted _ _ Hn).
      exists ANil, (ErrorsNew "not cache res"). repeat split; done.
Qed.

(** C7 -- after [setMeta(key, value)], within the same execution: when
    [value] is the empty string the key is deleted from the metadata and
    [getMeta(key)] fails with "not found", the script getting [null]; when
    [value] is not empty, [getMeta(key)] returns exactly [value]. *)
Theorem setMeta_then_getMeta (callS callG : list Value) (st : HostState)
    (key value : string) :
  parseArgs' callS [PString ""; PString ""] = (None, [PString key; PString value]) →
  parseArgs' callG [PString ""] = (None, [PString key]) →
  let st1 := (setFunction "setMeta" setMeta' callS st).2 in
  (value = "" →
     msgpart st1 = MetaDelete (msgpart st) key
     ∧ getMeta' callG st1 = (Returned ANil (Some (ErrorsNew "not found")), st1)
     ∧ setFunction "getMeta" getMeta' callG st1
       = (BValue Null, Errorln (ErrorsNew "not found") st1))
  ∧ (value ≠ "" →
     setFunction "getMeta" getMeta' callG st1 = (BValue (ToValue (AString value)), st1)).
Proof.
  intros HS HG. unfold setFunction, setMeta, getMeta. rewrite HS, HG. simpl.
  split; intros Hv.
  - rewrite bool_decide_eq_true_2 by done. simpl.
    unfold MetaGetMut, MetaDelete. simpl. rewrite lookup_delete_eq. done.
  - rewrite bool_decide_eq_false_2 by done. simpl.
    unfold MetaGetMut, MetaSetMut. simpl. rewrite lookup_insert_eq. done.
Qed.

(** C8 (amended) -- [benthos_output] outside the output stage fails with
    "run in processor" whatever the call.  On the output stage, with
    arguments that marshal to a name and a value: a name that is not in
    [outputs] fails with "not output res" and the state, every channel
    included, is as before (the [select] is not reached); a name in
    [outputs] selects one channel of that name.  While that channel is
    open, either its receiver takes, before the timer of one second fires,
    exactly one transaction, a batch of the one message [value] with no
    acknowledgement callback, every other channel staying as it was, or
    the call fails with "output timeout" and nothing is sent.  Once the
    dispatch loop has closed that channel, or when the stage has no such
    channel, the call panics instead and nothing is sent. *)
Theorem benthos_output_contract :
  (∀ call st,
     benthos_output' None call st
     = (Returned ANil (Some (ErrorsNew "run in processor")), st))
  ∧ ∀ outputs call st resName value,
      parseArgs' call [PString ""; PString ""]
      = (None, [PString resName; PString value]) →
      (resName ∉ outputs →
         benthos_output' (Some outputs) call st
         = (Returned ANil (Some (ErrorsNew "not output res")), st))
      ∧ (resName ∈ outputs →
         ∃ i, outputs !! i = Some resName
           ∧ benthos_output' (Some outputs) call st
             = match outputTSChans st !! i with
               | None => (Panicked, st)
               | Some c =>
                   if chan_closed c then (Panicked, st)
                   else if receiver_ready i
                   then (Returned ANil None,
                         with_chans
                           (<[i := mkChan false
                                     (mkTransaction [value] None :: chan_taken c)]>
                              (outputTSChans st)) st)
                   else (Returned ANil (Some (ErrorsNew "output timeout")), st)
               end).
Proof.
  split; [done|].
  intros outputs call st resName value Hp. unfold benthos_output. rewrite Hp.
  unfold string_at. cbn [lookup list_lookup].
  destruct (find_output_spec resName outputs 0 (-1)) as [[Hn Heq]|(k & Hk & Heq)].
  - split; [|done]. intros _. rewrite Heq.
    rewrite (bool_decide_eq_true_2 (_ < 0)%Z); [done|]. by case_bool_decide.
  - assert (Hin : resName ∈ outputs) by (apply list_elem_of_lookup; eauto).
    split; [done|]. intros _. exists k. split; [done|].
    rewrite Heq. cbn [Nat.add].
    rewrite (bool_decide_eq_true_2 (0 < length outputs))
      by (apply lookup_lt_Some in Hk; lia).
    rewrite bool_decide_eq_false_2 by lia.
    rewrite Nat2Z.id. destruct (outputTSChans st !! k) as [c|]; [|done].
    unfold select_send. destruct (chan_closed c); [done|].
    destruct (receiver_ready k); done.
Qed.

End HostFacts.


(** ** Stage construction *)

Section ConstructionFacts.
Context {Program Streamed : Type}.
Variable ReadFile : string → string + error.
Variable Compile : string → string → Program + error.
Variable NewOutput : string → Streamed + error.
Variable Consume : Streamed → option error.

Local Abbreviation compile_source' := (compile_source ReadFile Compile).
Local Abbreviation newJavaScript' := (newJavaScript ReadFile Compile).
Local Abbreviation newJavaScriptWriter' :=
  (newJavaScriptWriter ReadFile Compile NewOutput Consume).

Lemma compile_source_wraps (code file : string) (err : error) :
  compile_source' code file = inr err → ∃ msg cause, err = ErrWrapped msg cause.
Proof.
  unfold compile_source. intros H.
  case_bool_decide.
  - destruct (ReadFile file) as [bytes|e]; [|inversion H; eauto].
    destruct (Compile file bytes); inversion H; eauto.
  - destruct (Compile "main.js" code); inversion H; eauto.
Qed.

Lemma new_outputs_created (names : list string) (streams : list Streamed) :
  Forall2 (λ n s, NewOutput n = inl s) names streams →
  new_outputs NewOutput names = inl streams.
Proof.
  induction 1 as [|n s names streams Hn _ IH]; simpl; [done|]. by rewrite Hn, IH.
Qed.

Lemma new_outputs_failed (pre : list string) (n : string) (post : list string) (e : error) :
  Forall (λ x, ∃ s, NewOutput x = inl s) pre → NewOutput n = inr e →
  new_outputs NewOutput (pre ++ n :: post) = inr e.
Proof.
  intros Hpre Hn. induction Hpre as [|x pre [s Hx] _ IH]; simpl.
  - by rewrite Hn.
  - by rewrite Hx, IH.
Qed.

Lemma consume_all_consumed (streams : list Streamed) :
  Forall (λ s, Consume s = None) streams →
  consume_all Consume streams = inl (replicate (length streams) make_chan).
Proof.
  induction 1 as [|s streams Hs _ IH]; simpl; [done|]. by rewrite Hs, IH.
Qed.

Lemma consume_all_failed (pre : list Streamed) (s : Streamed) (post : list Streamed)
    (e : error) :
  Forall (λ x, Consume x = None) pre → Consume s = Some e →
  consume_all Consume (pre ++ s :: post) = inr e.
Proof.
  intros Hpre Hs. induction Hpre as [|x pre Hx _ IH]; simpl.
  - by rewrite Hs.
  - by rewrite Hx, IH.
Qed.

(** C2 (amended) -- both constructors fail with the "both specified" error
    when [code] and [file] are both non-empty and with the "neither
    specified" error when both are empty, whatever the fields hold and
    whatever the collaborators do.  With [code] alone, the processor's
    constructor compiles the code under the name [main.js] and fails
    exactly when [goja.Compile] does, with its error wrapped; with [file]
    alone, it reads the file and compiles what it read under the file's
    name, and fails exactly when [os.ReadFile] or [goja.Compile] does, with
    that error wrapped.  The output's constructor, with exactly one of the
    two, first creates a sink for every configured output in order and
    fails with [mgr.NewOutput]'s error on the first that cannot be created;
    then hands each sink a new channel and fails with the error of the
    first [Consume] that fails; and only then reads and compiles as the
    processor's constructor does, with the same errors. *)
Theorem construction_contract
    (pconf : processor.JavaScriptConfig) (oconf : output.JavaScriptConfig) :
  (processor.Code pconf ≠ "" ∧ processor.File pconf ≠ "" →
     newJavaScript' pconf = inr both_specified)
  ∧ (processor.Code pconf = "" ∧ processor.File pconf = "" →
     newJavaScript' pconf = inr neither_specified)
  ∧ (output.Code oconf ≠ "" ∧ output.File oconf ≠ "" →
     newJavaScriptWriter' oconf = inr both_specified)
  ∧ (output.Code oconf = "" ∧ output.File oconf = "" →
     newJavaScriptWriter' oconf = inr neither_specified)
  ∧ (processor.Code pconf ≠ "" ∧ processor.File pconf = "" →
     newJavaScript' pconf
     = match Compile "main.js" (processor.Code pconf) with
       | inr err => inr (ErrWrapped "failed to compile javascript code" err)
       | inl program => inl (mkProc program (processor.CacheRes pconf))
       end)
  ∧ (processor.Code pconf = "" ∧ processor.File pconf ≠ "" →
     newJavaScript' pconf
     = match ReadFile (processor.File pconf) with
       | inr err =>
           inr (ErrWrapped "failed to open the file specifed in 'file' field" err)
       | inl codeBytes =>
           match Compile (processor.File pconf) codeBytes with
           | inr err => inr (ErrWrapped "failed to compile javascript code" err)
           | inl program => inl (mkProc program (processor.CacheRes pconf))
           end
       end)
  ∧ (exactly_one (output.Code oconf) (output.File oconf) →
     (∀ pre n post e,
        output.OutputRes oconf = pre ++ n :: post →
        Forall (λ x, ∃ s, NewOutput x = inl s) pre → NewOutput n = inr e →
        newJavaScriptWriter' oconf = inr e)
     ∧ (∀ streams,
          Forall2 (λ n s, NewOutput n = inl s) (output.OutputRes oconf) streams →
          (∀ pre s post e,
             streams = pre ++ s :: post →
             Forall (λ x, Consume x = None) pre → Consume s = Some e →
             newJavaScriptWriter' oconf = inr e)
          ∧ (Forall (λ s, Consume s = None) streams →
             newJavaScriptWriter' oconf
             = match newJavaScript'
                       (processor.mkConfig (output.Code oconf) (output.File oconf)
                          (output.CacheRes oconf) (output.GlobalFolders oconf)) with
               | inr err => inr err
               | inl proc =>
                   inl (mkOutput (proc_program proc) (output.CacheRes oconf)
                          (output.OutputRes oconf)
                          (replicate (length streams) make_chan) streams)
               end))).
Proof.
  split; [|split; [|split; [|split; [|split; [|split]]]]].
  - intros H. unfold newJavaScript. by rewrite bool_decide_eq_true_2.
  - intros [Hc Hf]. unfold newJavaScript.
    rewrite bool_decide_eq_false_2 by (intros [? _]; done).
    by rewrite bool_decide_eq_true_2.
  - intros H. unfold newJavaScriptWriter. by rewrite bool_decide_eq_true_2.
  - intros [Hc Hf]. unfold newJavaScriptWriter.
    rewrite bool_decide_eq_false_2 by (intros [? _]; done).
    by rewrite bool_decide_eq_true_2.
  - intros [Hc Hf]. unfold newJavaScript, compile_source.
    rewrite bool_decide_eq_false_2 by (intros [? ?]; done).
    rewrite bool_decide_eq_false_2 by (intros [? ?]; done).
    rewrite (bool_decide_eq_false_2 (processor.File pconf ≠ "")) by (intros ?; done).
    by destruct (Compile "main.js" (processor.Code pconf)).
  - intros [Hc Hf]. unfold newJavaScript, compile_source.
    rewrite bool_decide_eq_false_2 by (intros [? ?]; done).
    rewrite bool_decide_eq_false_2 by (intros [? ?]; done).
    rewrite (bool_decide_eq_true_2 (processor.File pconf ≠ "")) by done.
    destruct (ReadFile (processor.File pconf)) as [codeBytes|err]; [|done].
    by destruct (Compile (processor.File pconf) codeBytes).
  - intros Hone.
    assert (Hnb : ¬ (output.Code oconf ≠ "" ∧ output.File oconf ≠ ""))
      by (destruct Hone as [[? ?]|[? ?]]; intros [? ?]; done).
    assert (Hnn : ¬ (output.Code oconf = "" ∧ output.File oconf = ""))
      by (destruct Hone as [[? ?]|[? ?]]; intros [? ?]; done).
    split.
    + intros pre n post e Hres Hpre Hn. unfold newJavaScriptWriter.
      rewrite (bool_decide_eq_false_2 _ Hnb), (bool_decide_eq_false_2 _ Hnn).
      by rewrite Hres, (new_outputs_failed pre n post e Hpre Hn).
    + intros streams Hstreams. split.
      * intros pre s0 post e Heq Hpre Hs. unfold newJavaScriptWriter.
        rewrite (bool_decide_eq_false_2 _ Hnb), (bool_decide_eq_false_2 _ Hnn).
        rewrite (new_outputs_created _ _ Hstreams).
        by rewrite Heq, (consume_all_failed pre s0 post e Hpre Hs).
      * intros Hcons. unfold newJavaScriptWriter, newJavaScript. simpl.
        rewrite (bool_decide_eq_false_2 _ Hnb), (bool_decide_eq_false_2 _ Hnn).
        rewrite (new_outputs_created _ _ Hstreams), (consume_all_consumed _ Hcons).
        by destruct (compile_source' _ _).
Qed.

End ConstructionFacts.

(** C2, as stated, fails on the output stage: with inline code alone, a
    source that compiles and on which the processor's constructor
    succeeds, and an output resource that cannot be created, the output's
    constructor fails, and with an error that is neither the file-read nor
    the compile error. *)
Lemma construction_fails_before_compiling :
  let conf := output.mkConfig "1" "" [] ["bad"] [] in
  exactly_one (output.Code conf) (output.File conf)
  ∧ compile_any "main.js" (output.Code conf) = inl "1"
  ∧ newJavaScript fs_empty compile_any (processor.mkConfig "1" "" [] [])
    = inl (mkProc "1" [])
  ∧ newJavaScriptWriter fs_empty compile_any only_good consume_ok conf
    = inr (ErrExternal "mgr.NewOutput").
Proof. split; [by left|]. repeat split; done. Qed.


(** ** The dispatch loop *)

Lemma upto_insert {A : Type} (P : nat → A → Prop) (k j : nat) (l : list A) (x x' : A) :
  (∀ i a, i < k → l !! i = Some a → P i a) → l !! j = Some x → (P j x → P j x') →
  ∀ i a, i < k → <[j := x']> l !! i = Some a → P i a.
Proof.
  intros Hk Hx Hmono i a Hi Hl.
  destruct (decide (i = j)) as [->|Hne].
  - rewrite list_lookup_insert_eq in Hl by (by eapply lookup_lt_Some).
    inversion Hl; subst. apply Hmono. by apply Hk.
  - rewrite list_lookup_insert_ne in Hl by done. by apply Hk.
Qed.

Lemma closed_upto_insert_closed (k : nat) (cs : list TSChan) (c c' : TSChan) :
  closed_upto k cs → cs !! k = Some c → chan_closed c' = true →
  closed_upto (S k) (<[k := c']> cs).
Proof.
  intros Hk Hc Hc' i c'' Hi Hl.
  destruct (decide (i = k)) as [->|Hne].
  - rewrite list_lookup_insert_eq in Hl by (by eapply lookup_lt_Some).
    by inversion Hl; subst.
  - rewrite list_lookup_insert_ne in Hl by done. apply (Hk i); [lia|done].
Qed.

Lemma closed_upto_S (k : nat) (cs : list TSChan) (c : TSChan) :
  closed_upto k cs → cs !! k = Some c → chan_closed c = true → closed_upto (S k) cs.
Proof.
  intros Hk Hc Hcl i c' Hi Hl.
  destruct (decide (i = k)) as [->|Hne].
  - rewrite Hc in Hl. by inversion Hl; subst.
  - apply (Hk i); [lia|done].
Qed.

Lemma closed_upto_send (k j : nat) (cs : list TSChan) (c : TSChan) (t : Transaction) :
  closed_upto k cs → cs !! j = Some c → chan_closed c = false →
  closed_upto k (<[j := mkChan false (t :: chan_taken c)]> cs).
Proof.
  intros Hk Hc Hopen i c' Hi Hl.
  destruct (decide (i = j)) as [->|Hne].
  - rewrite (Hk j c Hi Hc) in Hopen. done.
  - rewrite list_lookup_insert_ne in Hl by done. by apply (Hk i).
Qed.




Lemma triggered_upto_insert (k j : nat) (os : list Sink) (o o' : Sink) :
  triggered_upto k os → os !! j = Some o →
  (sink_triggered o = true → sink_triggered o' = true) →
  triggered_upto k (<[j := o']> os).
Proof.
  intros Hk Ho Hmono.
  exact (upto_insert (λ _ o, sink_triggered o = true) k j os o o' Hk Ho Hmono).
Qed.

Lemma confirmed_upto_insert (failed : nat → bool) (k j : nat) (os : list Sink) (o o' : Sink) :
  confirmed_upto failed k os → os !! j = Some o →
  (sink_closed o = true → sink_closed o' = true) →
  confirmed_upto failed k (<[j := o']> os).
Proof.
  intros Hk Ho Hmono.
  refine (upto_insert (λ i o, failed i = false → sink_closed o = true) k j os o o'
            Hk Ho _).
  intros H Hf. by apply Hmono, H.
Qed.


Lemma triggered_upto_trigger (k : nat) (os : list Sink) (o : Sink) :
  triggered_upto k os → os !! k = Some o →
  triggered_upto (S k) (<[k := sink_TriggerCloseNow o]> os).
Proof.
  intros Hk Ho i o' Hi Hl.
  destruct (decide (i = k)) as [->|Hne].
  - rewrite list_lookup_insert_eq in Hl by (by eapply lookup_lt_Some).
    by inversion Hl; subst.
  - rewrite list_lookup_insert_ne in Hl by done. apply (Hk i); [lia|done].
Qed.

(** The wait on sink [k] ending one way or the other extends what is known
    of the sinks before it. *)
Lemma confirmed_upto_S (failed : nat → bool) (b : bool) (k : nat) (os : list Sink)
    (o : Sink) :
  confirmed_upto failed k os → os !! k = Some o → (b = false → sink_closed o = true) →
  confirmed_upto (λ i, if decide (i = k) then b else failed i) (S k) os.
Proof.
  intros Hk Ho Hb i o' Hi Hl Hf. cbn beta in Hf.
  destruct (decide (i = k)) as [->|Hne].
  - rewrite Ho in Hl. inversion Hl; subst. by apply Hb.
  - apply (Hk i); [lia|done|done].
Qed.

Lemma wait_outcome_S (failed : nat → bool) (b : bool) (k : nat) :
  wait_outcome (λ i, if decide (i = k) then b else failed i) <$> seq 0 (S k)
  = (wait_outcome failed <$> seq 0 k)
    ++ [if b then SinkWaitFailed k else SinkCloseConfirmed k].
Proof.
  rewrite seq_S, fmap_app. f_equal.
  - apply list_fmap_ext. intros i x Hx. apply lookup_seq in Hx as [-> Hi].
    unfold wait_outcome. rewrite decide_False by lia. done.
  - cbn [Nat.add fmap list_fmap]. unfold wait_outcome. by rewrite decide_True.
Qed.

(** The invariant tolerates what others do to the channels and sinks, as
    long as nothing closed opens again and no trigger is taken back. *)
Lemma phase_inv_mono (p : PC) (cs cs' : list TSChan) (os os' : list Sink) (d : list Action) :
  length cs' = length cs → length os' = length os →
  (∀ k, closed_upto k cs → closed_upto k cs') →
  (∀ k, triggered_upto k os → triggered_upto k os') →
  (∀ failed k, confirmed_upto failed k os → confirmed_upto failed k os') →
  phase_inv p cs os d → phase_inv p cs' os' d.
Proof.
  intros Hlc Hlo Hc Ht Ho. unfold phase_inv. rewrite Hlc, Hlo.
  destruct p as [| | | |i|i|i| | |]; try done.
  - intros (? & ? & ?). auto.
  - intros (? & ? & ? & ?). auto.
  - intros (? & ? & ? & failed & ? & ?). repeat (split; [by auto|]). exists failed. auto.
  - intros (? & ? & failed & ? & ?). repeat (split; [by auto|]). exists failed. auto.
  - intros (? & ? & failed & ? & ?). repeat (split; [by auto|]). exists failed. auto.
  - intros (i & ? & ? & ?). exists i. auto.
Qed.

Lemma step_cases (ev : Event) (s : LoopState) :
  (pc s = Crashed ∧ step ev s = s) ∨ (pc s ≠ Crashed ∧ step ev s = stage_step ev s).
Proof. unfold step. destruct (pc s); auto. Qed.


Lemma loop_inv_start (sig : Signaller) (cs : list TSChan) (os : list Sink) :
  loop_inv (loop_start sig cs os).
Proof. unfold loop_inv, loop_start. simpl. repeat split; done. Qed.

Ltac loop_cbn :=
  cbn [set_pc did set_chans set_sinks set_shutSig pc ackPending shutSig chans sinks
       done_actions phase_inv].
Ltac loop_same := solve [loop_cbn; split; [done|]; split; [done|]; eauto 10].

Lemma loop_inv_goroutine (ev : Event) (s : LoopState) :
  loop_inv s → loop_inv (goroutine_step ev s).
Proof.
  destruct s as [p a g cs os d]. unfold loop_inv, goroutine_step. cbn [pc ackPending shutSig chans sinks done_actions].
  intros (Ha & Hclosed & Hp). subst a.
  destruct p as [| | | |i|i|i| | |]; cbn [phase_inv] in Hp.
  - destruct ev; simpl; try done.
    destruct (ShouldCloseNow g); simpl; repeat split; try done; by rewrite Hclosed.
  - destruct ev; simpl; try done.
    + destruct (closeNow g); simpl; repeat split; try done; by rewrite Hclosed.
    + repeat split; try done; by rewrite Hclosed.
    + repeat split; try done; by rewrite Hclosed.
  - destruct ev; simpl; try done.
    subst d. simpl. repeat split; try done; try (by rewrite Hclosed); try lia.
    intros i c Hi. lia.
  - done.
  - destruct Hp as (Hi & Hcl & ->).
    destruct ev; try loop_same.
    destruct (cs !! i) as [c|] eqn:Hc.
    + unfold close_chan. destruct (chan_closed c) eqn:Hcc;
        cbn [set_pc did set_chans pc ackPending shutSig chans sinks done_actions phase_inv].
      * split; [done|]. split; [by rewrite Hclosed|].
        exists i. split; [by apply lookup_lt_Some in Hc|].
        split; [by eapply closed_upto_S|done].
      * split; [done|]. split; [by rewrite Hclosed|].
        rewrite length_insert.
        split; [by apply lookup_lt_Some in Hc|].
        split; [by eapply closed_upto_insert_closed|].
        by rewrite seq_S, fmap_app, <- !app_assoc.
    + cbn [set_pc pc ackPending shutSig chans sinks done_actions phase_inv].
      apply lookup_ge_None in Hc. assert (i = length cs) as -> by lia.
      split; [done|]. split; [by rewrite Hclosed|].
      split; [lia|]. split; [done|]. split; [intros k o Hk; lia|].
      cbn [seq fmap list_fmap]. by rewrite app_nil_r.
  - destruct Hp as (Hi & Hcl & Htr & ->).
    destruct ev; try loop_same.
    destruct (os !! i) as [o|] eqn:Ho;
      cbn [set_pc did set_sinks pc ackPending shutSig chans sinks done_actions phase_inv].
    + split; [done|]. split; [by rewrite Hclosed|].
      rewrite length_insert.
      split; [by apply lookup_lt_Some in Ho|]. split; [done|].
      split; [by apply triggered_upto_trigger|].
      by rewrite seq_S, fmap_app, <- !app_assoc.
    + apply lookup_ge_None in Ho. assert (i = length os) as -> by lia.
      split; [done|]. split; [by rewrite Hclosed|].
      split; [lia|]. split; [done|]. split; [done|].
      exists (λ _, false). split; [intros k o Hk; lia|].
      cbn [seq fmap list_fmap]. by rewrite app_nil_r.
  - destruct Hp as (Hi & Hcl & Htr & failed & Hconf & ->).
    destruct ev; try loop_same.
    + destruct (os !! i) as [o|] eqn:Ho.
      * destruct (sink_closed o) eqn:Hoc; [|loop_same].
        cbn [set_pc did pc ackPending shutSig chans sinks done_actions phase_inv].
        split; [done|]. split; [by rewrite Hclosed|].
        split; [by apply lookup_lt_Some in Ho|]. split; [done|]. split; [done|].
        exists (λ k, if decide (k = i) then false else failed k).
        split; [by eapply confirmed_upto_S|].
        by rewrite wait_outcome_S, <- !app_assoc.
      * cbn [set_pc pc ackPending shutSig chans sinks done_actions phase_inv].
        apply lookup_ge_None in Ho. assert (i = length os) as -> by lia.
        split; [done|]. split; [by rewrite Hclosed|]. eauto 10.
    + destruct (os !! i) as [o|] eqn:Ho; [|loop_same].
      cbn [set_pc did pc ackPending shutSig chans sinks done_actions phase_inv].
      split; [done|]. split; [by rewrite Hclosed|].
      split; [by apply lookup_lt_Some in Ho|]. split; [done|]. split; [done|].
      exists (λ k, if decide (k = i) then true else failed k).
      split; [by eapply confirmed_upto_S|].
      by rewrite wait_outcome_S, <- !app_assoc.
  - destruct Hp as (Hcl & Htr & failed & Hconf & ->).
    destruct ev; try loop_same.
    cbn [set_pc did set_shutSig ShutdownComplete pc ackPending shutSig chans sinks
         done_actions phase_inv hasClosed].
    split; [done|]. split; [done|]. split; [done|]. split; [done|].
    exists failed. split; [done|].
    unfold shutdown_sequence. by rewrite <- !app_assoc.
  - done.
  - done.
Qed.

Lemma loop_inv_stage_step (ev : Event) (s : LoopState) :
  loop_inv s → loop_inv (stage_step ev s).
Proof.
  intros Hinv. destruct ev; try (by apply loop_inv_goroutine).
  - destruct s as [p a g cs os d]. unfold loop_inv, stage_step in *. simpl in *. done.
  - destruct s as [p a g cs os d]. unfold loop_inv, stage_step in *.
    cbn [pc ackPending shutSig chans sinks done_actions] in *.
    destruct (os !! i) as [o|] eqn:Ho; [|done].
    cbn [set_sinks pc ackPending shutSig chans sinks done_actions].
    destruct Hinv as (Ha & Hc & Hp). split; [done|]. split; [done|].
    eapply phase_inv_mono; [done|by rewrite length_insert|done| | |done].
    + intros k Hk. by eapply triggered_upto_insert.
    + intros failed k Hk. by eapply confirmed_upto_insert.
  - destruct s as [p a g cs os d]. unfold loop_inv, stage_step in *.
    cbn [pc ackPending shutSig chans sinks done_actions] in *.
    destruct (cs !! i) as [c|] eqn:Hc; [|done].
    unfold select_send. destruct (chan_closed c) eqn:Hopen; [done|].
    cbn [set_chans pc ackPending shutSig chans sinks done_actions].
    destruct Hinv as (Ha & Hcl & Hp). split; [done|]. split; [done|].
    eapply phase_inv_mono; [by rewrite length_insert|done| |done|done|done].
    intros k Hk. by eapply closed_upto_send.
Qed.

Lemma loop_inv_step (ev : Event) (s : LoopState) :
  loop_inv s → loop_inv (step ev s).
Proof.
  intros Hinv. destruct (step_cases ev s) as [[_ ->]|[_ ->]]; [done|].
  by apply loop_inv_stage_step.
Qed.

Lemma loop_inv_run (evs : list Event) :
  ∀ s, loop_inv s → loop_inv (run evs s).
Proof.
  induction evs as [|ev evs IH]; intros s Hinv; [done|].
  simpl. apply IH. by apply loop_inv_step.
Qed.

Lemma reachable_inv (s : LoopState) : reachable s → loop_inv s.
Proof.
  intros (sig & cs & os & evs & ->). apply loop_inv_run, loop_inv_start.
Qed.


















Section AckFacts.
Context {Value : Type} `{!GojaValue Value}.
Variable getMapFromValue : Value → gmap string any * option error.
Variable getSliceFromValue : Value → list any * option error.
Variable getMapSliceFromValue : Value → list (gmap string any) * option error.
Variable receiver_ready : nat → bool.

Local Abbreviation benthos_output' :=
  (benthos_output getMapFromValue getSliceFromValue getMapSliceFromValue receiver_ready).

Lemma step_ackPending (ev : Event) (s : LoopState) :
  ackPending (step ev s) = ackPending s.
Proof.
  destruct s as [p a g cs os d].
  destruct ev; unfold step, stage_step, goroutine_step, close_chan, select_send; simpl;
    repeat (match goal with
            | |- context [match ?x with _ => _ end] => destruct x; simpl
            end); done.
Qed.

(** Whatever [benthos_output] leaves in a channel was there before the
    call or carries no acknowledgement callback. *)
Lemma benthos_output_nil_ack (j : option (list string)) (call : list Value)
    (st : HostState) (i : nat) (c' : TSChan) (t : Transaction) :
  outputTSChans (benthos_output' j call st).2 !! i = Some c' →
  t ∈ chan_taken c' →
  Ack t = None ∨ ∃ c, outputTSChans st !! i = Some c ∧ t ∈ chan_taken c.
Proof.
  unfold benthos_output. destruct j as [outputs|]; [|by eauto].
  destruct (parseArgs _ _ _ call _) as [[e|] ps]; [by eauto|].
  case_bool_decide; [by eauto|].
  set (k := Z.to_nat _).
  destruct (outputTSChans st !! k) as [c|] eqn:Hc; [|by eauto].
  unfold select_send. destruct (chan_closed c); [by eauto|].
  destruct (receiver_ready k); [|by eauto].
  simpl. intros Hl Ht.
  destruct (decide (i = k)) as [->|Hne].
  - rewrite list_lookup_insert_eq in Hl by (by eapply lookup_lt_Some).
    inversion Hl; subst c'. simpl in Ht.
    apply elem_of_cons in Ht as [->|Ht]; [by left|]. right. eauto.
  - rewrite list_lookup_insert_ne in Hl by done. right. eauto.
Qed.

(** C10 -- the counter the drain wait reads is zero in every state the
    stage reaches and no step changes it: the loop drops a transaction it
    receives from upstream (the step changes nothing but where the
    goroutine stands), the wait's [select] is never entered and the wait
    ends at the goroutine's next step; and a transaction that
    [benthos_output] puts into a channel carries no acknowledgement
    callback. *)
Theorem ack_counter_stays_zero :
  (∀ s, reachable s →
     ackPending s = 0%Z ∧ pc s ≠ AtAckSelect
     ∧ (pc s = AtAckWait → pc (step Run s) = AtCloseChans 0))
  ∧ (∀ ev s, ackPending (step ev s) = ackPending s)
  ∧ (∀ t s, pc s = AtSelect → step (Upstream t) s = set_pc AtLoopHead s)
  ∧ (∀ j call st i c' t,
       outputTSChans (benthos_output' j call st).2 !! i = Some c' →
       t ∈ chan_taken c' →
       Ack t = None ∨ ∃ c, outputTSChans st !! i = Some c ∧ t ∈ chan_taken c).
Proof.
  split; [|split; [apply step_ackPending|split; [|apply benthos_output_nil_ack]]].
  - intros s Hr. apply reachable_inv in Hr as (Ha & Hclosed & Hp).
    destruct s as [p a g cs os d]. simpl in *. subst a.
    split; [done|]. split.
    + intros ->. done.
    + intros ->. done.
  - intros t [p a g cs os d] Hp. simpl in Hp. subst p. done.
Qed.

End AckFacts.



(** * The theorems at concrete inputs

    The bridge runs here on the model values [JSValue], with the model
    helpers and no network. *)

Lemma host_error_returns_null_witness :
  let body : list JSValue → HostState → outcome * HostState :=
    getMeta js_getMapFromValue js_getSliceFromValue js_getMapSliceFromValue js_stringify in
  body [JSString "k"] empty_host
  = (Returned ANil (Some (ErrorsNew "not found")), empty_host)
  ∧ js_call (λ _, true) [] None "getMeta" [JSString "k"] empty_host
    = Some (BValue JSNull, Errorln (ErrorsNew "not found") empty_host)
  ∧ setFunction "getMeta" body [JSString "k"] empty_host
    = (BValue JSNull, Errorln (ErrorsNew "not found") empty_host).
Proof.
  cbn zeta. split; [reflexivity|]. split; [reflexivity|].
  exact (proj1 (proj2 (host_error_returns_null js_getMapFromValue js_getSliceFromValue
                         js_getMapSliceFromValue js_stringify no_network (λ _, true)
                         [] None)
                  "getMeta" _ [JSString "k"] empty_host ANil (ErrorsNew "not found")
                  empty_host eq_refl)).
Defined.

Lemma construction_contract_witness :
  let pconf := processor.mkConfig "1" "" ["c1"] [] in
  let oconf := output.mkConfig "" "main.js" ["c1"] ["good"] [] in
  (processor.Code pconf ≠ "" ∧ processor.File pconf = "")
  ∧ exactly_one (output.Code oconf) (output.File oconf)
  ∧ Forall2 (λ n s, only_good n = inl s) (output.OutputRes oconf) ["good"]
  ∧ Forall (λ s, consume_ok s = None) ["good"]
  ∧ newJavaScript fs_empty compile_any pconf = inl (mkProc "1" ["c1"])
  ∧ newJavaScriptWriter fs_empty compile_any only_good consume_ok oconf
    = inr (ErrWrapped "failed to open the file specifed in 'file' field"
             (ErrExternal "os.ReadFile")).
Proof.
  cbn zeta.
  assert (Hp : processor.Code (processor.mkConfig "1" "" ["c1"] []) ≠ ""
               ∧ processor.File (processor.mkConfig "1" "" ["c1"] []) = "")
    by (split; [discriminate|reflexivity]).
  assert (Ho : exactly_one "" "main.js") by (right; split; [reflexivity|discriminate]).
  assert (Hs : Forall2 (λ n s, only_good n = inl s) ["good"] ["good"])
    by (repeat constructor).
  assert (Hc : Forall (λ s, consume_ok s = None) ["good"]) by (repeat constructor).
  split; [exact Hp|]. split; [exact Ho|]. split; [exact Hs|]. split; [exact Hc|].
  destruct (construction_contract fs_empty compile_any only_good consume_ok
              (processor.mkConfig "1" "" ["c1"] [])
              (output.mkConfig "" "main.js" ["c1"] ["good"] []))
    as (_ & _ & _ & _ & Hproc & _ & Hout).
  split; [exact (Hproc Hp)|].
  exact (proj2 (proj2 (Hout Ho) ["good"] Hs) Hc).
Defined.

Lemma cache_res_not_permitted_witness :
  let call := [JSString "other"; JSString "k"; JSString "v"] in
  (string_at (js_parseArgs call [PString ""; PString ""; PString ""]).2 0 ∉ ["c1"])
  ∧ ∃ result err,
      setCacheRes js_getMapFromValue js_getSliceFromValue js_getMapSliceFromValue
        ["c1"] call empty_host
      = (Returned result (Some err), empty_host)
      ∧ ((js_parseArgs call [PString ""; PString ""; PString ""]).1 = None →
           err = ErrorsNew "not cache res")
      ∧ setFunction "setCacheRes"
          (setCacheRes js_getMapFromValue js_getSliceFromValue js_getMapSliceFromValue
             ["c1"]) call empty_host
        = (BValue JSNull, Errorln err empty_host)
      ∧ accesses (mgr (Errorln err empty_host)) = accesses (mgr empty_host).
Proof.
  cbn zeta.
  assert (Hn : string_at
                 (js_parseArgs [JSString "other"; JSString "k"; JSString "v"]
                    [PString ""; PString ""; PString ""]).2 0 ∉ ["c1"]).
  { intros Hin. apply list_elem_of_singleton in Hin. discriminate Hin. }
  split; [exact Hn|].
  exact (proj2 (cache_res_not_permitted js_getMapFromValue js_getSliceFromValue
                  js_getMapSliceFromValue ["c1"]
                  [JSString "other"; JSString "k"; JSString "v"] empty_host) Hn).
Defined.

Lemma parseArgs_contract_witness :
  (length [PString (Value:=JSValue) ""] < length [JSInt 1; JSInt 2]
   ∧ js_parseArgs [JSInt 1; JSInt 2] [PString ""]
     = (Some (ErrTooManyArguments 2 1), [PString ""]))
  ∧ ((∃ arg, arg ∈ [JSString "u"; JSUndefined] ∧ IsUndefined arg = true)
     ∧ is_Some (js_parseArgs [JSString "u"; JSUndefined]
                  [PString ""; PString ""; PString "GET"]).1)
  ∧ (length [JSString "u"] ≤ 2
     ∧ (js_parseArgs [JSString "u"] [PString ""; PString ""; PString "GET"; PString ""]).2
         !! 2 = Some (PString "GET")).
Proof.
  split; [|split].
  - assert (Hlt : length [PString (Value:=JSValue) ""] < length [JSInt 1; JSInt 2])
      by (simpl; lia).
    split; [exact Hlt|].
    exact (proj1 (parseArgs_contract js_getMapFromValue js_getSliceFromValue
                    js_getMapSliceFromValue [JSInt 1; JSInt 2] [PString ""]) Hlt).
  - assert (Hu : ∃ arg, arg ∈ [JSString "u"; JSUndefined] ∧ IsUndefined arg = true).
    { exists JSUndefined. split; [|reflexivity].
      apply list_elem_of_further, list_elem_of_here. }
    split; [exact Hu|].
    exact (proj1 (proj2 (parseArgs_contract js_getMapFromValue js_getSliceFromValue
                           js_getMapSliceFromValue [JSString "u"; JSUndefined]
                           [PString ""; PString ""; PString "GET"])) Hu).
  - assert (Hle : length [JSString "u"] ≤ 2) by (simpl; lia).
    split; [exact Hle|].
    exact (proj1 (proj2 (proj2 (parseArgs_contract js_getMapFromValue js_getSliceFromValue
                                  js_getMapSliceFromValue [JSString "u"]
                                  [PString ""; PString ""; PString "GET"; PString ""])))
             2 Hle).
Defined.

Lemma parseArgs_converts_witness :
  IsUndefined (JSInt 5) = false
  ∧ js_parseArgs [JSInt 5] [PString ""] = (None, [PString "5"])
  ∧ js_parseArgs [JSInt 5] [PBool false] = (None, [PBool true]).
Proof.
  assert (Hu : IsUndefined (JSInt 5) = false) by reflexivity.
  split; [exact Hu|].
  destruct (parseArgs_converts js_getMapFromValue js_getSliceFromValue
              js_getMapSliceFromValue (JSInt 5) Hu)
    as (Hs & _ & _ & _ & Hb & _).
  split; [exact (Hs "")|exact (Hb false)].
Defined.

(** C5, as stated, fails: a number supplied for a string destination is
    turned into its decimal text, and a string supplied for an integer
    destination is read as a numeral; neither call is rejected. *)
Lemma parseArgs_coerces_mismatched_shapes :
  shape_matches (JSInt 5) (PString "") = false
  ∧ js_parseArgs [JSInt 5] [PString ""] = (None, [PString "5"])
  ∧ shape_matches (JSString "42") (PInt 0) = false
  ∧ js_parseArgs [JSString "42"] [PInt 0] = (None, [PInt 42]).
Proof. repeat split; reflexivity. Qed.

Lemma setMeta_then_getMeta_witness :
  let setMeta' := setMeta js_getMapFromValue js_getSliceFromValue js_getMapSliceFromValue in
  let getMeta' :=
    getMeta js_getMapFromValue js_getSliceFromValue js_getMapSliceFromValue js_stringify in
  let st1 := (setFunction "setMeta" setMeta' [JSString "x"; JSString "y"] empty_host).2 in
  let st2 := (setFunction "setMeta" setMeta' [JSString "x"; JSString ""] st1).2 in
  js_parseArgs [JSString "x"; JSString "y"] [PString ""; PString ""]
  = (None, [PString "x"; PString "y"])
  ∧ js_parseArgs [JSString "x"] [PString ""] = (None, [PString "x"])
  ∧ setFunction "getMeta" getMeta' [JSString "x"] st1 = (BValue (JSString "y"), st1)
  ∧ setFunction "getMeta" getMeta' [JSString "x"] st2
    = (BValue JSNull, Errorln (ErrorsNew "not found") st2).
Proof.
  cbn zeta.
  assert (HS : js_parseArgs [JSString "x"; JSString "y"] [PString ""; PString ""]
               = (None, [PString "x"; PString "y"])) by reflexivity.
  assert (HS' : js_parseArgs [JSString "x"; JSString ""] [PString ""; PString ""]
                = (None, [PString "x"; PString ""])) by reflexivity.
  assert (HG : js_parseArgs [JSString "x"] [PString ""] = (None, [PString "x"]))
    by reflexivity.
  split; [exact HS|]. split; [exact HG|]. split.
  - assert (Hy : "y" ≠ "") by discriminate.
    exact (proj2 (setMeta_then_getMeta js_getMapFromValue js_getSliceFromValue
                    js_getMapSliceFromValue js_stringify
                    [JSString "x"; JSString "y"] [JSString "x"] empty_host "x" "y" HS HG)
             Hy).
  - exact (proj2 (proj2 (proj1 (setMeta_then_getMeta js_getMapFromValue js_getSliceFromValue
                    js_getMapSliceFromValue js_stringify
                    [JSString "x"; JSString ""] [JSString "x"] _ "x" "" HS' HG)
             eq_refl))).
Defined.

Lemma benthos_output_contract_witness :
  let out := benthos_output js_getMapFromValue js_getSliceFromValue
               js_getMapSliceFromValue (λ i, bool_decide (i = 1)) (Some ["a"; "b"]) in
  let st := mkHost empty_part (mkManager ∅ []) [make_chan; make_chan] [] in
  js_parseArgs [JSString "b"; JSString "payload"] [PString ""; PString ""]
  = (None, [PString "b"; PString "payload"])
  ∧ (("c" ∉ ["a"; "b"])
     ∧ out [JSString "c"; JSString "payload"] st
       = (Returned ANil (Some (ErrorsNew "not output res")), st))
  ∧ ("b" ∈ ["a"; "b"]
     ∧ out [JSString "b"; JSString "payload"] st
       = (Returned ANil None,
          with_chans [make_chan; mkChan false [mkTransaction ["payload"] None]] st))
  ∧ out [JSString "a"; JSString "payload"] st
    = (Returned ANil (Some (ErrorsNew "output timeout")), st).
Proof.
  cbn zeta.
  assert (Hp : ∀ n, js_parseArgs [JSString n; JSString "payload"] [PString ""; PString ""]
                    = (None, [PString n; PString "payload"])) by reflexivity.
  pose proof (proj2 (benthos_output_contract js_getMapFromValue js_getSliceFromValue
                       js_getMapSliceFromValue (λ i, bool_decide (i = 1)))) as Hc.
  split; [exact (Hp "b")|]. split; [|split].
  - assert (Hn : "c" ∉ ["a"; "b"]).
    { intros Hin. apply elem_of_cons in Hin as [Hin|Hin]; [discriminate Hin|].
      apply list_elem_of_singleton in Hin. discriminate Hin. }
    split; [exact Hn|].
    exact (proj1 (Hc ["a"; "b"] _ _ "c" "payload" (Hp "c")) Hn).
  - assert (Hin : "b" ∈ ["a"; "b"]) by (apply list_elem_of_further, list_elem_of_here).
    split; [exact Hin|].
    destruct (proj2 (Hc ["a"; "b"] _
                       (mkHost empty_part (mkManager ∅ []) [make_chan; make_chan] [])
                       "b" "payload" (Hp "b")) Hin)
      as (i & Hi & Hsend).
    destruct i as [|[|i]]; [discriminate Hi| |discriminate Hi].
    exact Hsend.
  - reflexivity.
Defined.



(** C8, counterexample -- a call of [benthos_output] on the output stage
    against a configured sink name, made once the dispatch loop has closed
    the channels, delivers nothing and fails with no timeout error: its
    send panics. *)
Lemma benthos_output_on_closed_channel :
  let s := run (orderly_shutdown 1 1)
             (loop_start NewSignaller [make_chan] [mkSink false false]) in
  let st := mkHost empty_part (mkManager ∅ []) (chans s) [] in
  let out := benthos_output js_getMapFromValue js_getSliceFromValue
               js_getMapSliceFromValue (λ _, true) (Some ["a"]) in
  reachable s
  ∧ "a" ∈ ["a"]
  ∧ js_parseArgs [JSString "a"; JSString "m"] [PString ""; PString ""]
    = (None, [PString "a"; PString "m"])
  ∧ out [JSString "a"; JSString "m"] st = (Panicked, st)
  ∧ chan_taken <$> outputTSChans (out [JSString "a"; JSString "m"] st).2 = [[]].
Proof.
  cbn zeta. split; [|split; [apply list_elem_of_here|repeat split; reflexivity]].
  exists NewSignaller, [make_chan], [mkSink false false], (orderly_shutdown 1 1).
  reflexivity.
Qed.

Lemma ack_counter_stays_zero_witness :
  let s := run [Run; Upstream (mkTransaction ["m"] (Some 7)); Run; ScriptSend 0 "v";
                StageTriggerCloseNow; Run]
             (loop_start NewSignaller [make_chan] [mkSink false false]) in
  reachable s
  ∧ pc s = AtAckWait
  ∧ ackPending s = 0%Z
  ∧ pc (step Run s) = AtCloseChans 0.
Proof.
  cbn zeta.
  assert (Hr : reachable
                 (run [Run; Upstream (mkTransaction ["m"] (Some 7)); Run; ScriptSend 0 "v";
                       StageTriggerCloseNow; Run]
                    (loop_start NewSignaller [make_chan] [mkSink false false]))).
  { exists NewSignaller, [make_chan], [mkSink false false],
      [Run; Upstream (mkTransaction ["m"] (Some 7)); Run; ScriptSend 0 "v";
       StageTriggerCloseNow; Run]. reflexivity. }
  split; [exact Hr|]. split; [reflexivity|].
  destruct (proj1 (ack_counter_stays_zero js_getMapFromValue js_getSliceFromValue
                     js_getMapSliceFromValue (λ _, true)) _ Hr) as (Ha & _ & Hw).
  split; [exact Ha|exact (Hw eq_refl)].
Defined.



(** * Further properties of the code *)

(** ** The marshaller on the destinations the host functions use *)

Section MarshallerMore.
Context {Value : Type} `{!GojaValue Value}.
Variable getMapFromValue : Value → gmap string any * option error.
Variable getSliceFromValue : Value → list any * option error.
Variable getMapSliceFromValue : Value → list (gmap string any) * option error.

Local Abbreviation assign' := (assign getMapFromValue getSliceFromValue getMapSliceFromValue).
Local Abbreviation parseArgs_from' :=
  (parseArgs_from getMapFromValue getSliceFromValue getMapSliceFromValue).
Local Abbreviation parseArgs' :=
  (parseArgs getMapFromValue getSliceFromValue getMapSliceFromValue).

Lemma assign_infallible (i : nat) (arg : Value) (p : ptr Value) :
  infallible p = true → (assign' i arg p).2 = None.
Proof. destruct p; simpl; done. Qed.

Lemma parseArgs_from_succeeds_iff (call : list Value) :
  ∀ (i : nat) (ptrs : list (ptr Value)),
    length call ≤ length ptrs → Forall (λ p, infallible p = true) ptrs →
    (parseArgs_from' i call ptrs).1 = None ↔ Forall (λ a, IsUndefined a = false) call.
Proof.
  induction call as [|arg call IH]; intros i ptrs Hlen Hinf; simpl.
  - split; [constructor|done].
  - destruct ptrs as [|p ptrs]; simpl in Hlen; [lia|].
    apply Forall_cons in Hinf as [Hp Hinf].
    pose proof (assign_infallible i arg p Hp) as Ha.
    destruct (IsUndefined arg) eqn:Hu; simpl.
    + split; [done|]. intros Hall. apply Forall_cons in Hall as [Hd _]. congruence.
    + destruct (assign' i arg p) as [p' e]. simpl in Ha. subst e.
      specialize (IH (S i) ptrs ltac:(lia) Hinf).
      destruct (parseArgs_from' (S i) call ptrs) as [e rest]. simpl in *.
      rewrite IH. split; [by constructor|]. intros Hall. by apply Forall_cons in Hall as [_ ?].
Qed.

(** X1 -- into destinations of the kinds whose conversion cannot fail
    (string, int, int64, float64, bool, goja value, interface), a call
    marshals exactly when it has no more arguments than there are
    destinations and none of its arguments is undefined. *)
Theorem parseArgs_succeeds_iff (call : list Value) (ptrs : list (ptr Value)) :
  Forall (λ p, infallible p = true) ptrs →
  (parseArgs' call ptrs).1 = None
  ↔ length call ≤ length ptrs ∧ Forall (λ a, IsUndefined a = false) call.
Proof.
  intros Hinf. unfold parseArgs. case_bool_decide as Hlt; simpl.
  - split; [done|]. intros [Hle _]. lia.
  - rewrite parseArgs_from_succeeds_iff by (done || lia).
    split; [intros ?; split; [lia|done]|by intros [_ ?]].
Qed.

Lemma parseArgs_from_strings (call : list Value) :
  ∀ (i : nat) (ds : list string),
    length call ≤ length ds → Forall (λ a, IsUndefined a = false) call →
    parseArgs_from' i call (PString <$> ds)
    = (None, PString <$> ((vString <$> call) ++ drop (length call) ds)).
Proof.
  induction call as [|arg call IH]; intros i ds Hlen Hdef; simpl.
  - by rewrite drop_0.
  - destruct ds as [|d ds]; simpl in Hlen; [lia|].
    apply Forall_cons in Hdef as [Hd Hdef].
    rewrite fmap_cons. cbn [parseArgs_from assign length]. rewrite Hd.
    rewrite (IH (S i) ds) by (done || lia). done.
Qed.

(** X2 -- into string destinations, a call that marshals leaves in the
    destinations the engine's string of each argument, in order, followed
    by the former content of the destinations it did not reach. *)
Theorem parseArgs_strings (call : list Value) (ds : list string) :
  length call ≤ length ds → Forall (λ a, IsUndefined a = false) call →
  parseArgs getMapFromValue getSliceFromValue getMapSliceFromValue call (PString <$> ds)
  = (None, PString <$> ((vString <$> call) ++ drop (length call) ds)).
Proof.
  intros Hlen Hdef. unfold parseArgs.
  rewrite bool_decide_eq_false_2 by (rewrite length_fmap; lia).
  by apply parseArgs_from_strings.
Qed.

Lemma parseArgs_from_first_undefined (pre : list Value) :
  ∀ (i : nat) (u : Value) (post : list Value) (ds : list string),
    Forall (λ a, IsUndefined a = false) pre → IsUndefined u = true →
    length (pre ++ u :: post) ≤ length ds →
    parseArgs_from' i (pre ++ u :: post) (PString <$> ds)
    = (Some (ErrUndefinedArgument (i + length pre)),
       PString <$> ((vString <$> pre) ++ drop (length pre) ds)).
Proof.
  induction pre as [|arg pre IH]; intros i u post ds Hdef Hu Hlen; simpl in *.
  - destruct ds as [|d ds]; simpl in Hlen; [lia|].
    rewrite fmap_cons. cbn [parseArgs_from]. rewrite Hu. by rewrite Nat.add_0_r.
  - destruct ds as [|d ds]; simpl in Hlen; [lia|].
    apply Forall_cons in Hdef as [Hd Hdef].
    rewrite fmap_cons. cbn [parseArgs_from assign length]. rewrite Hd.
    rewrite (IH (S i) u post ds) by (done || lia).
    replace (S i + length pre) with (i + S (length pre)) by lia. done.
Qed.

(** X3 -- a call within the number of string destinations whose first
    undefined argument stands at position [n] fails with the error naming
    position [n]; the destinations before [n] have by then been overwritten
    with the strings of their arguments, the others are untouched. *)
Theorem parseArgs_first_undefined (pre post : list Value) (u : Value) (ds : list string) :
  Forall (λ a, IsUndefined a = false) pre → IsUndefined u = true →
  length (pre ++ u :: post) ≤ length ds →
  parseArgs getMapFromValue getSliceFromValue getMapSliceFromValue
    (pre ++ u :: post) (PString <$> ds)
  = (Some (ErrUndefinedArgument (length pre)),
     PString <$> ((vString <$> pre) ++ drop (length pre) ds)).
Proof.
  intros Hdef Hu Hlen. unfold parseArgs.
  rewrite bool_decide_eq_false_2 by (rewrite length_fmap; lia).
  by rewrite (parseArgs_from_first_undefined pre 0 u post ds Hdef Hu Hlen).
Qed.

End MarshallerMore.

(** ** The host functions on the message and the caches *)

Section HostMore.
Context {Value : Type} `{!GojaValue Value}.
Variable getMapFromValue : Value → gmap string any * option error.
Variable getSliceFromValue : Value → list any * option error.
Variable getMapSliceFromValue : Value → list (gmap string any) * option error.
Variable stringify : any → string.
Variable receiver_ready : nat → bool.

Local Abbreviation parseArgs' :=
  (parseArgs getMapFromValue getSliceFromValue getMapSliceFromValue).
Local Abbreviation getMeta' :=
  (getMeta getMapFromValue getSliceFromValue getMapSliceFromValue stringify).
Local Abbreviation setMeta' :=
  (setMeta getMapFromValue getSliceFromValue getMapSliceFromValue).
Local Abbreviation setRoot' :=
  (setRoot getMapFromValue getSliceFromValue getMapSliceFromValue).
Local Abbreviation getCacheRes' :=
  (getCacheRes getMapFromValue getSliceFromValue getMapSliceFromValue).
Local Abbreviation setCacheRes' :=
  (setCacheRes getMapFromValue getSliceFromValue getMapSliceFromValue).
Local Abbreviation getCache' :=
  (getCache getMapFromValue getSliceFromValue getMapSliceFromValue).
Local Abbreviation setCache' :=
  (setCache getMapFromValue getSliceFromValue getMapSliceFromValue).
Local Abbreviation benthos_output' :=
  (benthos_output getMapFromValue getSliceFromValue getMapSliceFromValue receiver_ready).

Lemma cache_permitted_head (c : string) (rest : list string) :
  negb (cache_permitted (c :: rest) c false) = false.
Proof.
  rewrite cache_permitted_spec. simpl.
  rewrite bool_decide_eq_true_2; [done|]. apply list_elem_of_here.
Qed.

Lemma cache_permitted_in (caches : list string) (n : string) :
  n ∈ caches → negb (cache_permitted caches n false) = false.
Proof.
  intros Hin. rewrite cache_permitted_spec. simpl. by rewrite bool_decide_eq_true_2.
Qed.

(** X4 -- with at least one cache configured, [getCache(key)] does what
    [getCacheRes(first, key)] does and [setCache(key, value)] what
    [setCacheRes(first, key, value)] does, [first] being the first
    configured name: same result, same state after, for every call within
    the declared arguments none of which is undefined. *)
Theorem getCache_as_getCacheRes (c : string) (rest : list string) (cv : Value)
    (call : list Value) (st : HostState) :
  IsUndefined cv = false → vString cv = c →
  Forall (λ a, IsUndefined a = false) call →
  (length call ≤ 1 →
     getCache' (c :: rest) call st = getCacheRes' (c :: rest) (cv :: call) st)
  ∧ (length call ≤ 2 →
     setCache' (c :: rest) call st = setCacheRes' (c :: rest) (cv :: call) st).
Proof.
  intros Hcv Hc Hdef. split; intros Hlen.
  - unfold getCache, getCacheRes.
    rewrite (parseArgs_strings _ _ _ call [""]) by done.
    rewrite (parseArgs_strings _ _ _ (cv :: call) [""; ""])
      by (simpl; (lia || by constructor)).
    destruct call as [|k [|k2 call]]; simpl in Hlen; try lia;
      unfold string_at; cbn [fmap list_fmap app drop length lookup list_lookup];
      rewrite Hc, cache_permitted_head; done.
  - unfold setCache, setCacheRes.
    rewrite (parseArgs_strings _ _ _ call [""; ""]) by done.
    rewrite (parseArgs_strings _ _ _ (cv :: call) [""; ""; ""])
      by (simpl; (lia || by constructor)).
    destruct call as [|k [|k2 [|k3 call]]]; simpl in Hlen; try lia;
      unfold string_at; cbn [fmap list_fmap app drop length lookup list_lookup];
      rewrite Hc, cache_permitted_head; done.
Qed.

(** X5 -- on a stage with no cache configured, each of the four cache
    functions returns an error for every call and leaves the state, the
    cache manager with it, as it was. *)
Theorem no_caches_no_access (call : list Value) (st : HostState) :
  (∃ r e, getCacheRes' [] call st = (Returned r (Some e), st))
  ∧ (∃ r e, setCacheRes' [] call st = (Returned r (Some e), st))
  ∧ (∃ r e, getCache' [] call st = (Returned r (Some e), st))
  ∧ (∃ r e, setCache' [] call st = (Returned r (Some e), st)).
Proof.
  unfold getCacheRes, setCacheRes, getCache, setCache.
  repeat split;
    match goal with
    | |- context [parseArgs _ _ _ call ?ps] =>
        destruct (parseArgs getMapFromValue getSliceFromValue getMapSliceFromValue call ps)
          as [[e|] ps']
    end; simpl; eauto.
Qed.

(** X6 -- through a configured cache that the manager holds, a value
    written by [setCacheRes] is what [getCacheRes] reads back under the
    same key; the two calls make exactly two accesses, the write and then
    the read, and do not touch the message. *)
Theorem cache_round_trip (caches : list string) (callS callG : list Value)
    (st : HostState) (n k v : string) (c : gmap string string) :
  parseArgs' callS [PString ""; PString ""; PString ""]
  = (None, [PString n; PString k; PString v]) →
  parseArgs' callG [PString ""; PString ""] = (None, [PString n; PString k]) →
  n ∈ caches → resources (mgr st) !! n = Some c →
  ∃ st1 st2,
    setFunction "setCacheRes" (setCacheRes' caches) callS st = (BValue (ToValue ANil), st1)
    ∧ setFunction "getCacheRes" (getCacheRes' caches) callG st1
      = (BValue (ToValue (AString v)), st2)
    ∧ accesses (mgr st2) = CacheGet n k :: CacheSet n k v :: accesses (mgr st)
    ∧ msgpart st2 = msgpart st ∧ logger st2 = logger st.
Proof.
  intros HS HG Hin Hres.
  unfold setFunction, setCacheRes, getCacheRes. rewrite HS, HG.
  unfold string_at. simpl. rewrite (cache_permitted_in _ _ Hin). simpl.
  unfold AccessCache_Set. rewrite Hres. simpl.
  eexists _, _. split; [reflexivity|].
  unfold AccessCache_Get. simpl. rewrite lookup_insert_eq. simpl.
  rewrite lookup_insert_eq. simpl. done.
Qed.

(** X7 -- through a configured cache name that the manager does not hold,
    [getCacheRes] fails with "not found" and [setCacheRes] with "not set";
    so does [getCacheRes] on a key the cache does not hold.  None of these
    calls changes what the caches hold. *)
Theorem cache_backend_failures (caches : list string) (callS callG : list Value)
    (st : HostState) (n k v : string) :
  parseArgs' callS [PString ""; PString ""; PString ""]
  = (None, [PString n; PString k; PString v]) →
  parseArgs' callG [PString ""; PString ""] = (None, [PString n; PString k]) →
  n ∈ caches →
  (resources (mgr st) !! n = None →
     (∃ st', setCacheRes' caches callS st = (Returned ANil (Some (ErrorsNew "not set")), st')
             ∧ resources (mgr st') = resources (mgr st))
     ∧ (∃ st', getCacheRes' caches callG st
               = (Returned ANil (Some (ErrorsNew "not found")), st')
               ∧ resources (mgr st') = resources (mgr st)))
  ∧ (∀ c, resources (mgr st) !! n = Some c → c !! k = None →
       ∃ st', getCacheRes' caches callG st
              = (Returned ANil (Some (ErrorsNew "not found")), st')
              ∧ resources (mgr st') = resources (mgr st)).
Proof.
  intros HS HG Hin. unfold setCacheRes, getCacheRes. rewrite HS, HG.
  unfold string_at. simpl. rewrite (cache_permitted_in _ _ Hin). simpl.
  unfold AccessCache_Set, AccessCache_Get.
  split.
  - intros Hres. rewrite Hres. simpl. split; eexists; split; reflexivity.
  - intros c Hres Hk. rewrite Hres, Hk. simpl. eexists; split; reflexivity.
Qed.

(** X8 -- [setMeta] on a key leaves every other key's metadata, the
    structured payload, the caches, the channels and the logger as they
    were. *)
Theorem setMeta_frame (call : list Value) (st : HostState) (key value : string) :
  parseArgs' call [PString ""; PString ""] = (None, [PString key; PString value]) →
  let st1 := (setMeta' call st).2 in
  (∀ key', key' ≠ key → MetaGetMut (msgpart st1) key' = MetaGetMut (msgpart st) key')
  ∧ structured (msgpart st1) = structured (msgpart st)
  ∧ mgr st1 = mgr st ∧ outputTSChans st1 = outputTSChans st ∧ logger st1 = logger st.
Proof.
  intros Hp. unfold setMeta. rewrite Hp. unfold string_at. simpl.
  case_bool_decide; simpl; (split; [|done]); intros key' Hne; unfold MetaGetMut; simpl.
  - by rewrite lookup_delete_ne.
  - by rewrite lookup_insert_ne.
Qed.

(** X9 -- of two successive calls of [setMeta] on the same key only the
    second counts: the state is the one the second call alone would
    leave. *)
Theorem setMeta_last_write_wins (call1 call2 : list Value) (st : HostState)
    (key value1 value2 : string) :
  parseArgs' call1 [PString ""; PString ""] = (None, [PString key; PString value1]) →
  parseArgs' call2 [PString ""; PString ""] = (None, [PString key; PString value2]) →
  (setMeta' call2 (setMeta' call1 st).2).2 = (setMeta' call2 st).2.
Proof.
  intros H1 H2. unfold setMeta. rewrite H1, H2. unfold string_at. simpl.
  destruct st as [[s m] g cs l].
  do 2 case_bool_decide; simpl; unfold with_msgpart, MetaDelete, MetaSetMut; simpl;
    do 2 f_equal.
  - apply delete_delete_eq.
  - apply delete_insert_eq.
  - apply insert_delete_eq.
  - apply insert_insert_eq.
Qed.

(** X10 -- [setRoot(value)] makes the exported value the structured
    payload, and the next [getRoot] returns it; called with no argument,
    [setRoot] sets the payload to nil; called with undefined, it fails and
    changes nothing.  In no case does it touch the metadata. *)
Theorem setRoot_then_getRoot (v : Value) (st : HostState) :
  (IsUndefined v = false →
     (setRoot' [v] st).1 = Returned ANil None
     ∧ structured (msgpart (setRoot' [v] st).2) = Some (Export v)
     ∧ metadata (msgpart (setRoot' [v] st).2) = metadata (msgpart st)
     ∧ setFunction "getRoot" getRoot [] (setRoot' [v] st).2
       = (BValue (ToValue (Export v)), (setRoot' [v] st).2))
  ∧ (IsUndefined v = true →
     setRoot' [v] st = (Returned ANil (Some (ErrUndefinedArgument 0)), st))
  ∧ (setRoot' [] st).1 = Returned ANil None
  ∧ structured (msgpart (setRoot' [] st).2) = Some ANil
  ∧ metadata (msgpart (setRoot' [] st).2) = metadata (msgpart st).
Proof.
  unfold setRoot, setFunction, getRoot, parseArgs. simpl.
  split; [|split].
  - intros Hv. rewrite Hv. simpl. done.
  - intros Hv. rewrite Hv. simpl. done.
  - done.
Qed.

End HostMore.

(** ** Whole runs of a program *)

Lemma chans_grow_refl (cs : list TSChan) : chans_grow cs cs.
Proof.
  unfold chans_grow. apply Forall2_same_length_lookup. split; [done|].
  intros i c c' Hc Hc'. rewrite Hc in Hc'. inversion Hc'; subst.
  split; [done|]. exists []. split; [done|constructor].
Qed.

Lemma chans_grow_trans (cs1 cs2 cs3 : list TSChan) :
  chans_grow cs1 cs2 → chans_grow cs2 cs3 → chans_grow cs1 cs3.
Proof.
  unfold chans_grow. intros H12 H23.
  apply Forall2_same_length_lookup.
  apply Forall2_same_length_lookup in H12 as [Hl12 H12].
  apply Forall2_same_length_lookup in H23 as [Hl23 H23].
  split; [congruence|]. intros i c1 c3 H1 H3.
  destruct (lookup_lt_is_Some_2 cs2 i) as [c2 H2].
  { rewrite <- Hl12. by eapply lookup_lt_Some. }
  destruct (H12 i c1 c2 H1 H2) as (Hc12 & new12 & Ht12 & Hf12).
  destruct (H23 i c2 c3 H2 H3) as (Hc23 & new23 & Ht23 & Hf23).
  split; [congruence|]. exists (new23 ++ new12).
  split; [by rewrite Ht23, Ht12, app_assoc|]. by apply Forall_app.
Qed.

Lemma chans_grow_send (cs : list TSChan) (i : nat) (c : TSChan) (value : string) :
  cs !! i = Some c → chan_closed c = false →
  chans_grow cs (<[i := mkChan false (NewTransaction (QuickBatch [value]) None :: chan_taken c)]> cs).
Proof.
  intros Hc Hopen. unfold chans_grow.
  rewrite <- (list_insert_id cs i c Hc) at 1.
  apply Forall2_insert.
  - apply (chans_grow_refl cs).
  - simpl. split; [done|].
    exists [NewTransaction (QuickBatch [value]) None]. split; [done|].
    repeat constructor. by exists value.
Qed.

Lemma chans_grow_ok (outputs : list string) (cs cs' : list TSChan) :
  chans_grow cs cs' → chans_ok outputs cs → chans_ok outputs cs'.
Proof.
  unfold chans_grow, chans_ok. intros Hg [Hlen Hopen].
  split; [by rewrite <- (Forall2_length _ _ _ Hg)|].
  apply Forall_lookup. intros i c' Hc'.
  apply Forall2_same_length_lookup in Hg as [Hl Hg].
  destruct (lookup_lt_is_Some_2 cs i) as [c Hc].
  { rewrite Hl. by eapply lookup_lt_Some. }
  destruct (Hg i c c' Hc Hc') as [-> _].
  by eapply (proj1 (Forall_lookup _ _) Hopen).
Qed.

Section ExecutionFacts.
Context {Value : Type} `{!GojaValue Value}.
Variable getMapFromValue : Value → gmap string any * option error.
Variable getSliceFromValue : Value → list any * option error.
Variable getMapSliceFromValue : Value → list (gmap string any) * option error.
Variable stringify : any → string.
Variable http_exchange : string → string → string → string → (Z * string) + error.
Variable receiver_ready : nat → bool.

Local Abbreviation parseArgs' :=
  (parseArgs getMapFromValue getSliceFromValue getMapSliceFromValue).
Local Abbreviation host_functions' :=
  (host_functions getMapFromValue getSliceFromValue getMapSliceFromValue
     stringify http_exchange receiver_ready).
Local Abbreviation call_global' :=
  (call_global getMapFromValue getSliceFromValue getMapSliceFromValue
     stringify http_exchange receiver_ready).
Local Abbreviation RunProgram' :=
  (RunProgram getMapFromValue getSliceFromValue getMapSliceFromValue
     stringify http_exchange receiver_ready).
Local Abbreviation Process' :=
  (Process getMapFromValue getSliceFromValue getMapSliceFromValue
     stringify http_exchange receiver_ready).
Local Abbreviation WriteBatch_part' :=
  (WriteBatch_part getMapFromValue getSliceFromValue getMapSliceFromValue
     stringify http_exchange receiver_ready).

Lemma footprint_unchanged (caches : list string) (j : option (list string))
    (st : HostState) (result : any) (err : option error) :
  body_footprint caches j st (Returned result err, st).
Proof.
  unfold body_footprint. simpl. repeat split; try done.
  - exists []. split; [done|constructor].
  - apply chans_grow_refl.
Qed.

Lemma footprint_access (caches : list string) (j : option (list string))
    (st : HostState) (result : any) (err : option error) (m : Manager) (a : CacheAccess) :
  access_resource a ∈ caches → accesses m = a :: accesses (mgr st) →
  (∀ n, n ∉ caches → resources m !! n = resources (mgr st) !! n) →
  body_footprint caches j st (Returned result err, with_mgr m st).
Proof.
  intros Ha Hacc Hres. unfold body_footprint. simpl. repeat split; try done.
  - exists [a]. split; [done|]. by constructor.
  - apply chans_grow_refl.
Qed.

Lemma footprint_get (caches : list string) (j : option (list string))
    (st : HostState) (n key : string) :
  n ∈ caches →
  body_footprint caches j st
    (let '((_result, err), m) := AccessCache_Get (mgr st) n key in
     match err with
     | None => (Returned (AString _result) None, with_mgr m st)
     | Some _ => (Returned ANil (Some (ErrorsNew "not found")), with_mgr m st)
     end).
Proof.
  intros Hin. unfold AccessCache_Get.
  destruct (resources (mgr st) !! n) as [c|]; [destruct (c !! key)|];
    by apply (footprint_access _ _ _ _ _ _ (CacheGet n key)).
Qed.

Lemma footprint_set (caches : list string) (j : option (list string))
    (st : HostState) (n key value : string) :
  n ∈ caches →
  body_footprint caches j st
    (let '(err, m) := AccessCache_Set (mgr st) n key value in
     match err with
     | Some _ => (Returned ANil (Some (ErrorsNew "not set")), with_mgr m st)
     | None => (Returned ANil None, with_mgr m st)
     end).
Proof.
  intros Hin. unfold AccessCache_Set.
  destruct (resources (mgr st) !! n) as [c|] eqn:Hc;
    apply (footprint_access _ _ _ _ _ _ (CacheSet n key value)); try done.
  simpl. intros n' Hn'. rewrite lookup_insert_ne; [done|]. by intros ->.
Qed.

Lemma permitted_in (caches : list string) (n : string) :
  negb (cache_permitted caches n false) = false → n ∈ caches.
Proof.
  rewrite cache_permitted_spec. simpl. intros Hb.
  apply negb_false_iff in Hb. by apply bool_decide_eq_true_1 in Hb.
Qed.

Lemma host_functions_footprint (caches : list string) (j : option (list string))
    (name : string) (body : HostFunction) (call : list Value) (st : HostState) :
  (name, body) ∈ host_functions' caches j →
  body_footprint caches j st (body call st).
Proof.
  unfold host_functions. intros Hin.
  repeat (apply elem_of_cons in Hin as [Hin|Hin];
          [inversion Hin; subst name body; clear Hin|]);
    [..|by apply not_elem_of_nil in Hin].
  - unfold fetch. destruct (parseArgs' call _) as [[e|] ps];
      [apply footprint_unchanged|].
    destruct (http_exchange _ _ _ _) as [[status body]|e]; apply footprint_unchanged.
  - unfold getMeta. destruct (parseArgs' call _) as [[e|] ps];
      [apply footprint_unchanged|].
    destruct (MetaGetMut _ _); apply footprint_unchanged.
  - unfold setMeta. destruct (parseArgs' call _) as [[e|] ps];
      [apply footprint_unchanged|].
    case_bool_decide; unfold body_footprint; simpl; repeat split; try done;
      try apply chans_grow_refl; (exists []; split; [done|constructor]).
  - unfold setRoot. destruct (parseArgs' call _) as [[e|] ps];
      [apply footprint_unchanged|].
    unfold body_footprint; simpl; repeat split; try done;
      try apply chans_grow_refl; (exists []; split; [done|constructor]).
  - unfold getRoot. destruct (AsStructuredMut _). apply footprint_unchanged.
  - unfold getCacheRes. destruct (parseArgs' call _) as [[e|] ps];
      [apply footprint_unchanged|].
    destruct (negb _) eqn:Hperm; [apply footprint_unchanged|].
    apply footprint_get. by apply permitted_in.
  - unfold setCacheRes. destruct (parseArgs' call _) as [[e|] ps];
      [apply footprint_unchanged|].
    destruct (negb _) eqn:Hperm; [apply footprint_unchanged|].
    apply footprint_set. by apply permitted_in.
  - unfold getCache. destruct (parseArgs' call _) as [[e|] ps];
      [apply footprint_unchanged|].
    destruct caches as [|c rest]; [apply footprint_unchanged|].
    apply footprint_get. apply list_elem_of_here.
  - unfold setCache. destruct (parseArgs' call _) as [[e|] ps];
      [apply footprint_unchanged|].
    destruct caches as [|c rest]; [apply footprint_unchanged|].
    apply footprint_set. apply list_elem_of_here.
  - unfold benthos_output. destruct j as [outputs|]; [|apply footprint_unchanged].
    destruct (parseArgs' call _) as [[e|] ps]; [apply footprint_unchanged|].
    set (resName := string_at ps 0). set (value := string_at ps 1).
    destruct (find_output_spec resName outputs 0 (-1)) as [[Hn Heq]|(k & Hk & Heq)].
    + assert (Hidx : (if bool_decide (0 < length outputs)
                      then find_output 0 outputs resName (-1) else (-1)%Z) = (-1)%Z)
        by (rewrite Heq; by case_bool_decide).
      rewrite Hidx. simpl. apply footprint_unchanged.
    + assert (Hidx : (if bool_decide (0 < length outputs)
                      then find_output 0 outputs resName (-1) else (-1)%Z) = Z.of_nat k).
      { rewrite Heq. rewrite bool_decide_eq_true_2; [done|].
        apply lookup_lt_Some in Hk. lia. }
      rewrite Hidx. rewrite bool_decide_eq_false_2 by lia. rewrite Nat2Z.id.
      destruct (outputTSChans st !! k) as [c|] eqn:Hc.
      * unfold select_send. destruct (chan_closed c) eqn:Hopen.
        { unfold body_footprint. simpl. repeat split; try done.
          - exists []. split; [done|constructor].
          - apply chans_grow_refl.
          - intros [_ Hall]. rewrite Forall_lookup in Hall.
            rewrite (Hall k c Hc) in Hopen. done. }
        destruct (receiver_ready k); [|apply footprint_unchanged].
        unfold body_footprint. simpl. repeat split; try done.
        -- exists []. split; [done|constructor].
        -- by apply chans_grow_send.
      * unfold body_footprint. simpl. repeat split; try done.
        -- exists []. split; [done|constructor].
        -- apply chans_grow_refl.
        -- intros [Hlen _]. apply lookup_ge_None in Hc.
           apply lookup_lt_Some in Hk. lia.
Qed.

Lemma call_global_Some (caches : list string) (j : option (list string))
    (name : string) (call : list Value) (st : HostState)
    (r : bridged Value * HostState) :
  call_global' caches j name call st = Some r →
  ∃ n body, (n, body) ∈ host_functions' caches j ∧ r = setFunction n body call st.
Proof.
  unfold call_global, getVM.
  destruct (list_find _ _) as [[i [n f]]|] eqn:Hfind; [|done].
  intros Hr. inversion Hr; subst r. clear Hr.
  apply list_find_Some in Hfind as (Hl & _ & _).
  apply list_lookup_fmap_Some in Hl as ([n' body] & Heq & Hl).
  simpl in Heq. inversion Heq; subst. exists n', body. split; [|done].
  apply list_elem_of_lookup. eauto.
Qed.

Lemma call_global_registered (caches : list string) (j : option (list string))
    (name : string) (call : list Value) (st : HostState) :
  name ∈ global_names → is_Some (call_global' caches j name call st).
Proof.
  unfold global_names. intros Hin.
  repeat (apply elem_of_cons in Hin as [->|Hin]; [by eexists|]).
  by apply not_elem_of_nil in Hin.
Qed.

(** What a whole run may do, and that it does not panic while the
    stage's channels are in order. *)
Lemma RunProgram_footprint (caches : list string) (j : option (list string))
    (program : Script Value) :
  ∀ st,
    accesses_within caches st (RunProgram' caches j program st).2
    ∧ others_untouched caches st (RunProgram' caches j program st).2
    ∧ chans_grow (outputTSChans st) (outputTSChans (RunProgram' caches j program st).2)
    ∧ (j = None → outputTSChans (RunProgram' caches j program st).2 = outputTSChans st)
    ∧ (match j with
       | None => True
       | Some outputs => chans_ok outputs (outputTSChans st)
       end → (RunProgram' caches j program st).1 ≠ RunPanic).
Proof.
  induction program as [|e|name call k IH]; intros st.
  - simpl. repeat split; try done; [exists []; split; [done|constructor]|apply chans_grow_refl].
  - simpl. repeat split; try done; [exists []; split; [done|constructor]|apply chans_grow_refl].
  - cbn [RunProgram].
    destruct (call_global' caches j name call st) as [[b st1]|] eqn:Hcall.
    2:{ simpl. repeat split; try done;
          [exists []; split; [done|constructor]|apply chans_grow_refl]. }
    apply call_global_Some in Hcall as (n & body & Hin & Hr).
    pose proof (host_functions_footprint caches j n body call st Hin)
      as (Hacc & Hoth & Hgrow & Hnone & Hpanic).
    unfold setFunction in Hr.
    destruct (body call st) as [[result [err|]|] st0] eqn:Hbody;
      inversion Hr; subst b st1; clear Hr; simpl in *.
    + destruct (IH Null (Errorln err st0)) as (Hacc' & Hoth' & Hgrow' & Hnone' & Hpanic').
      split; [|split; [|split; [|split]]].
      * destruct Hacc as (new & Hnew & Hf). destruct Hacc' as (new' & Hnew' & Hf').
        exists (new' ++ new). simpl in Hnew'. rewrite Hnew', Hnew, app_assoc.
        split; [done|]. by apply Forall_app.
      * intros x Hx. rewrite (Hoth' x Hx). simpl. by apply Hoth.
      * by eapply chans_grow_trans.
      * intros Hj. rewrite (Hnone' Hj). simpl. by apply Hnone.
      * intros Hok. apply Hpanic'. destruct j as [outputs|]; [|done].
        simpl. by eapply chans_grow_ok.
    + destruct (IH (ToValue result) st0) as (Hacc' & Hoth' & Hgrow' & Hnone' & Hpanic').
      split; [|split; [|split; [|split]]].
      * destruct Hacc as (new & Hnew & Hf). destruct Hacc' as (new' & Hnew' & Hf').
        exists (new' ++ new). rewrite Hnew', Hnew, app_assoc.
        split; [done|]. by apply Forall_app.
      * intros x Hx. rewrite (Hoth' x Hx). by apply Hoth.
      * by eapply chans_grow_trans.
      * intros Hj. rewrite (Hnone' Hj). by apply Hnone.
      * intros Hok. apply Hpanic'. destruct j as [outputs|]; [|done].
        by eapply chans_grow_ok.
    + repeat split; try done. intros Hok. by apply Hpanic in Hok.
Qed.

Lemma Process_state (caches : list string) (program : Script Value) (st : HostState) :
  (Process' caches program st).2 = (RunProgram' caches None program st).2.
Proof.
  unfold Process. by destruct (RunProgram' caches None program st) as [[|e|] st'].
Qed.

(** X11 -- whatever program runs, in the processor or on a message of the
    output stage, every cache access it makes names a cache of the
    configured [cache_res] list, and what the caches outside that list
    hold is left as it was. *)
Theorem run_reaches_only_configured_caches (caches outputs : list string)
    (program : Script Value) (st : HostState) :
  (accesses_within caches st (Process' caches program st).2
   ∧ others_untouched caches st (Process' caches program st).2)
  ∧ (accesses_within caches st (WriteBatch_part' caches outputs program st).2
     ∧ others_untouched caches st (WriteBatch_part' caches outputs program st).2).
Proof.
  rewrite Process_state. unfold WriteBatch_part.
  destruct (RunProgram_footprint caches None program st) as (H1 & H2 & _).
  destruct (RunProgram_footprint caches (Some outputs) program st) as (H3 & H4 & _).
  done.
Qed.

(** X12 -- in the processor no program sends anything to a sink, and
    [Process] never ends in the panic of a send: the channels are after
    [Process] what they were before. *)
Theorem Process_never_sends (caches : list string) (program : Script Value)
    (st : HostState) :
  outputTSChans (Process' caches program st).2 = outputTSChans st
  ∧ (Process' caches program st).1 ≠ ProcessPanic.
Proof.
  rewrite Process_state.
  destruct (RunProgram_footprint caches None program st) as (_ & _ & _ & Hn & Hp).
  split; [by apply Hn|].
  unfold Process. specialize (Hp I).
  by destruct (RunProgram' caches None program st) as [[|e|] st'].
Qed.

(** X13 -- on a message of the output stage, whatever program runs: no
    channel is closed, opened, added or removed, and each channel's
    receiver has taken, besides what it had, only transactions of one
    message with no acknowledgement callback.  While the stage has one
    open channel per output, the run does not panic and leaves it so. *)
Theorem WriteBatch_part_channels (caches outputs : list string)
    (program : Script Value) (st : HostState) :
  chans_grow (outputTSChans st) (outputTSChans (WriteBatch_part' caches outputs program st).2)
  ∧ (chans_ok outputs (outputTSChans st) →
       (WriteBatch_part' caches outputs program st).1 ≠ RunPanic
       ∧ chans_ok outputs (outputTSChans (WriteBatch_part' caches outputs program st).2)).
Proof.
  unfold WriteBatch_part.
  destruct (RunProgram_footprint caches (Some outputs) program st)
    as (_ & _ & Hg & _ & Hp).
  split; [done|]. intros Hok. split; [by apply Hp|]. by eapply chans_grow_ok.
Qed.

Lemma RunProgram_never_throws (caches : list string) (j : option (list string))
    (program : Script Value) :
  never_throws global_names program →
  ∀ st, (RunProgram' caches j program st).1 = RunOk
        ∨ (RunProgram' caches j program st).1 = RunPanic.
Proof.
  induction 1 as [|name call k Hname Hk IH]; intros st; [by left|].
  cbn [RunProgram].
  destruct (call_global_registered caches j name call st Hname) as [[b st1] Hcall].
  rewrite Hcall. destruct b as [v|]; [apply IH|by right].
Qed.

(** X14 -- a program that calls only the globals of the VM and never ends
    in an exception of its own makes [Process] return the one message it
    was given, as the run left it, with no error: the errors of host
    functions along the way do not fail the message. *)
Theorem Process_host_errors_not_fatal (caches : list string) (program : Script Value)
    (st : HostState) :
  never_throws global_names program →
  ∃ st', Process' caches program st = (Processed [msgpart st'], st').
Proof.
  intros Hnt.
  destruct (RunProgram_footprint caches None program st) as (_ & _ & _ & _ & Hp).
  specialize (Hp I).
  destruct (RunProgram_never_throws caches None program Hnt st) as [Hok|Hpanic];
    [|done].
  unfold Process. destruct (RunProgram' caches None program st) as [r st'].
  simpl in Hok. subst r. by exists st'.
Qed.

End ExecutionFacts.

(** ** Which channel [benthos_output] sends on *)

Lemma find_output_last (resName : string) (outputs : list string) :
  ∀ (i : nat) (idx : Z),
    ((resName ∉ outputs) ∧ find_output i outputs resName idx = idx)
    ∨ (∃ k, outputs !! k = Some resName
            ∧ (∀ k', k < k' → outputs !! k' ≠ Some resName)
            ∧ find_output i outputs resName idx = Z.of_nat (i + k)).
Proof.
  induction outputs as [|o outputs IH]; intros i idx; cbn [find_output].
  - left. split; [apply not_elem_of_nil|done].
  - destruct (IH (S i) (if bool_decide (resName = o) then Z.of_nat i else idx))
      as [[Hn Heq]|(k & Hk & Hlast & Heq)].
    + case_bool_decide as Ho.
      * right. exists 0. subst o. split; [done|]. split.
        -- intros [|k'] Hk'; [lia|]. simpl. intros Hin. apply Hn.
           apply list_elem_of_lookup. eauto.
        -- rewrite Heq. f_equal. lia.
      * left. split; [|done]. rewrite not_elem_of_cons. done.
    + right. exists (S k). split; [done|]. split.
      * intros [|k'] Hk'; [lia|]. simpl. apply Hlast. lia.
      * rewrite Heq. f_equal. lia.
Qed.

Section OutputMore.
Context {Value : Type} `{!GojaValue Value}.
Variable getMapFromValue : Value → gmap string any * option error.
Variable getSliceFromValue : Value → list any * option error.
Variable getMapSliceFromValue : Value → list (gmap string any) * option error.
Variable receiver_ready : nat → bool.

Local Abbreviation parseArgs' :=
  (parseArgs getMapFromValue getSliceFromValue getMapSliceFromValue).
Local Abbreviation benthos_output' :=
  (benthos_output getMapFromValue getSliceFromValue getMapSliceFromValue receiver_ready).

Lemma benthos_output_index (outputs : list string) (call : list Value) (st : HostState)
    (resName value : string) (k : nat) :
  parseArgs' call [PString ""; PString ""] = (None, [PString resName; PString value]) →
  outputs !! k = Some resName →
  (∀ k', k < k' → outputs !! k' ≠ Some resName) →
  benthos_output' (Some outputs) call st
  = match outputTSChans st !! k with
    | None => (Panicked, st)
    | Some c =>
        match select_send (receiver_ready k) c (NewTransaction (QuickBatch [value]) None) with
        | Sent c' => (Returned ANil None, with_chans (<[k := c']> (outputTSChans st)) st)
        | TimedOut => (Returned ANil (Some (ErrorsNew "output timeout")), st)
        | SendPanic => (Panicked, st)
        end
    end.
Proof.
  intros Hp Hk Hlast. unfold benthos_output. rewrite Hp.
  unfold string_at. cbn [lookup list_lookup].
  destruct (find_output_last resName outputs 0 (-1)) as [[Hn _]|(k0 & Hk0 & Hlast0 & Heq)].
  - exfalso. apply Hn. apply list_elem_of_lookup. eauto.
  - assert (k0 = k) as ->.
    { destruct (Nat.lt_trichotomy k0 k) as [Hlt|[Heq'|Hgt]]; [|done|].
      - by apply Hlast0 in Hlt.
      - by apply Hlast in Hgt. }
    rewrite Heq. cbn [Nat.add].
    rewrite (bool_decide_eq_true_2 (0 < length outputs))
      by (apply lookup_lt_Some in Hk; lia).
    rewrite bool_decide_eq_false_2 by lia.
    by rewrite Nat2Z.id.
Qed.

(** X15 -- when a sink name stands more than once in [output_res],
    [benthos_output] sends on the channel of its last occurrence: while
    that channel is open, either its receiver takes the transaction, which
    is then the newest that channel holds, and the call returns [nil], or
    the call fails with "output timeout" and nothing is sent; when that
    channel is closed or missing the call panics.  The channels of the
    earlier occurrences, like every other channel, stay as they were. *)
Theorem benthos_output_last_occurrence (outputs : list string) (call : list Value)
    (st : HostState) (resName value : string) (k : nat) :
  parseArgs' call [PString ""; PString ""] = (None, [PString resName; PString value]) →
  outputs !! k = Some resName →
  (∀ k', k < k' → outputs !! k' ≠ Some resName) →
  benthos_output' (Some outputs) call st
  = match outputTSChans st !! k with
    | None => (Panicked, st)
    | Some c =>
        if chan_closed c then (Panicked, st)
        else if receiver_ready k
        then (Returned ANil None,
              with_chans
                (<[k := mkChan false (mkTransaction [value] None :: chan_taken c)]>
                   (outputTSChans st)) st)
        else (Returned ANil (Some (ErrorsNew "output timeout")), st)
    end
  ∧ (∀ c, outputTSChans st !! k = Some c → chan_closed c = false →
          receiver_ready k = true →
          outputTSChans (benthos_output' (Some outputs) call st).2 !! k
          = Some (mkChan false (mkTransaction [value] None :: chan_taken c)))
  ∧ ∀ i, i ≠ k →
      outputTSChans (benthos_output' (Some outputs) call st).2 !! i = outputTSChans st !! i.
Proof.
  intros Hp Hk Hlast.
  rewrite (benthos_output_index outputs call st resName value k Hp Hk Hlast).
  unfold select_send.
  destruct (outputTSChans st !! k) as [c|] eqn:Hc; [|by repeat split].
  destruct (chan_closed c) eqn:Hcc.
  { split; [done|]. split; [|done]. intros c' Hc' Hopen. inversion Hc'; subst c'.
    by rewrite Hcc in Hopen. }
  destruct (receiver_ready k); simpl; (split; [done|]); split; try done.
  - intros c' Hc' _ _. inversion Hc'; subst c'.
    apply list_lookup_insert_eq. by eapply lookup_lt_Some.
  - intros i Hi. by rewrite list_lookup_insert_ne.
Qed.

(** X16 -- once the dispatch loop has marked the stage closed, its
    channels are closed, and a [benthos_output] call naming a configured
    sink no longer returns an error or [null]: its send panics, and the
    panic passes through the bridge. *)
Theorem benthos_output_after_shutdown (s : LoopState) (outputs : list string)
    (call : list Value) (st : HostState) (resName value : string) :
  reachable s → hasClosed (shutSig s) = true →
  outputTSChans st = chans s → length outputs = length (chans s) →
  parseArgs' call [PString ""; PString ""] = (None, [PString resName; PString value]) →
  resName ∈ outputs →
  benthos_output' (Some outputs) call st = (Panicked, st)
  ∧ setFunction "benthos_output" (benthos_output' (Some outputs)) call st = (BPanic, st).
Proof.
  intros Hr Hclosed Hst Hlen Hp Hin.
  apply reachable_inv in Hr as (_ & Hex & Hinv).
  apply Hex in Hclosed. rewrite Hclosed in Hinv. simpl in Hinv.
  destruct Hinv as (Hcs & _ & _).
  destruct (find_output_last resName outputs 0 (-1)) as [[Hn _]|(k & Hk & Hlast & _)];
    [done|].
  assert (Hb : benthos_output' (Some outputs) call st = (Panicked, st)).
  { rewrite (benthos_output_index outputs call st resName value k Hp Hk Hlast).
    rewrite Hst. destruct (chans s !! k) as [c|] eqn:Hc; [|done].
    unfold select_send. rewrite (Hcs k c); [done| |done].
    by eapply lookup_lt_Some. }
  split; [done|]. unfold setFunction. by rewrite Hb.
Qed.

End OutputMore.

(** ** What the constructors leave behind *)

Section ConstructionMore.
Context {Program Streamed : Type}.
Variable ReadFile : string → string + error.
Variable Compile : string → string → Program + error.
Variable NewOutput : string → Streamed + error.
Variable Consume : Streamed → option error.

Local Abbreviation newJavaScript' := (newJavaScript ReadFile Compile).
Local Abbreviation newJavaScriptWriter' :=
  (newJavaScriptWriter ReadFile Compile NewOutput Consume).

Lemma new_outputs_inl (names : list string) :
  ∀ streams, new_outputs NewOutput names = inl streams →
             Forall2 (λ n s, NewOutput n = inl s) names streams.
Proof.
  induction names as [|n names IH]; intros streams; simpl.
  - intros H. inversion H. constructor.
  - destruct (NewOutput n) as [s|e] eqn:Hn; [|done].
    destruct (new_outputs NewOutput names) as [ss|e]; [|done].
    intros H. inversion H. constructor; [done|]. by apply IH.
Qed.

Lemma new_outputs_inr (names : list string) :
  ∀ e, new_outputs NewOutput names = inr e →
       ∃ pre n post, names = pre ++ n :: post
                     ∧ Forall (λ x, ∃ s, NewOutput x = inl s) pre
                     ∧ NewOutput n = inr e.
Proof.
  induction names as [|n names IH]; intros e; simpl; [done|].
  destruct (NewOutput n) as [s|e'] eqn:Hn.
  - destruct (new_outputs NewOutput names) as [ss|e'']; [done|].
    intros H. inversion H; subst e''.
    destruct (IH e eq_refl) as (pre & n' & post & -> & Hpre & Hn').
    exists (n :: pre), n', post. split; [done|]. split; [|done].
    constructor; [by eexists|done].
  - intros H. inversion H; subst e'. exists [], n, names. split; [done|].
    split; [constructor|done].
Qed.

Lemma consume_all_inl (streams : list Streamed) :
  ∀ cs, consume_all Consume streams = inl cs → cs = replicate (length streams) make_chan.
Proof.
  induction streams as [|s streams IH]; intros cs; simpl.
  - intros H. by inversion H.
  - destruct (Consume s); [done|].
    destruct (consume_all Consume streams) as [cs'|e]; [|done].
    intros H. inversion H. f_equal. by apply IH.
Qed.

Lemma newJavaScriptWriter_chans (conf : output.JavaScriptConfig)
    (j : javascriptOutput Program Streamed) :
  newJavaScriptWriter' conf = inl j →
  out_outputs j = output.OutputRes conf
  ∧ Forall2 (λ n s, NewOutput n = inl s) (out_outputs j) (out_outputStreams j)
  ∧ out_outputTSChans j = replicate (length (out_outputs j)) make_chan.
Proof.
  unfold newJavaScriptWriter.
  case_bool_decide as Hboth; [done|]. case_bool_decide as Hneither; [done|].
  destruct (new_outputs NewOutput _) as [streams|e] eqn:Hs; [|done].
  destruct (consume_all Consume streams) as [cs|e] eqn:Hc; [|done].
  destruct (compile_source _ _ _ _) as [p|e]; [|done].
  intros H. inversion H; subst j; clear H. simpl.
  apply new_outputs_inl in Hs. apply consume_all_inl in Hc.
  pose proof (Forall2_length _ _ _ Hs) as Hlen.
  repeat split; try done. by rewrite Hc, Hlen.
Qed.

Lemma newJavaScriptWriter_chans_ok (conf : output.JavaScriptConfig)
    (j : javascriptOutput Program Streamed) :
  newJavaScriptWriter' conf = inl j → chans_ok (out_outputs j) (out_outputTSChans j).
Proof.
  intros Hj. destruct (newJavaScriptWriter_chans conf j Hj) as (_ & _ & Hc).
  rewrite Hc. split; [by rewrite length_replicate|]. by apply Forall_replicate.
Qed.

(** X17 -- an output stage that its constructor returns was configured
    with exactly one of [code] and [file]; it carries the configured cache
    and output names, one created sink per output name in the order of the
    names, and one channel per output, each open and with nothing sent on
    it yet. *)
Theorem newJavaScriptWriter_result (conf : output.JavaScriptConfig)
    (j : javascriptOutput Program Streamed) :
  newJavaScriptWriter' conf = inl j →
  exactly_one (output.Code conf) (output.File conf)
  ∧ out_caches j = output.CacheRes conf
  ∧ out_outputs j = output.OutputRes conf
  ∧ Forall2 (λ n s, NewOutput n = inl s) (out_outputs j) (out_outputStreams j)
  ∧ out_outputTSChans j = replicate (length (out_outputs j)) make_chan
  ∧ chans_ok (out_outputs j) (out_outputTSChans j).
Proof.
  unfold newJavaScriptWriter.
  case_bool_decide as Hboth; [done|]. case_bool_decide as Hneither; [done|].
  destruct (new_outputs NewOutput _) as [streams|e] eqn:Hs; [|done].
  destruct (consume_all Consume streams) as [cs|e] eqn:Hc; [|done].
  destruct (compile_source _ _ _ _) as [p|e]; [|done].
  intros H. inversion H; subst j; clear H. simpl.
  apply new_outputs_inl in Hs. apply consume_all_inl in Hc.
  pose proof (Forall2_length _ _ _ Hs) as Hlen.
  split.
  { destruct (decide (output.Code conf = "")) as [Hc0|Hc0];
      destruct (decide (output.File conf = "")) as [Hf0|Hf0].
    - exfalso. by apply Hneither.
    - by right.
    - by left.
    - exfalso. by apply Hboth. }
  repeat split; try done.
  - by rewrite Hc, Hlen.
  - by rewrite Hc, length_replicate.
  - rewrite Hc. by apply Forall_replicate.
Qed.

(** X18 -- when the output stage's constructor fails while creating its
    sinks, the error is that of the first output name, in the order of
    [output_res], whose sink cannot be created: the names before it were
    created, those after it were not tried, and nothing was compiled. *)
Theorem newJavaScriptWriter_first_failing_output (conf : output.JavaScriptConfig) (e : error) :
  exactly_one (output.Code conf) (output.File conf) →
  new_outputs NewOutput (output.OutputRes conf) = inr e →
  newJavaScriptWriter' conf = inr e
  ∧ ∃ pre n post, output.OutputRes conf = pre ++ n :: post
                  ∧ Forall (λ x, ∃ s, NewOutput x = inl s) pre
                  ∧ NewOutput n = inr e.
Proof.
  intros Hone He. split; [|by apply new_outputs_inr].
  unfold newJavaScriptWriter.
  rewrite bool_decide_eq_false_2 by (destruct Hone as [[? ?]|[? ?]]; intros [? ?]; done).
  rewrite bool_decide_eq_false_2 by (destruct Hone as [[? ?]|[? ?]]; intros [? ?]; done).
  by rewrite He.
Qed.

End ConstructionMore.

(** ** A constructed output stage at work *)

Section StageAtWork.
Context {Value : Type} `{!GojaValue Value}.
Variable getMapFromValue : Value → gmap string any * option error.
Variable getSliceFromValue : Value → list any * option error.
Variable getMapSliceFromValue : Value → list (gmap string any) * option error.
Variable stringify : any → string.
Variable http_exchange : string → string → string → string → (Z * string) + error.
Variable receiver_ready : nat → bool.
Context {Streamed : Type}.
Variable ReadFile : string → string + error.
Variable Compile : string → string → Script Value + error.
Variable NewOutput : string → Streamed + error.
Variable Consume : Streamed → option error.

Local Abbreviation run_parts' :=
  (run_parts getMapFromValue getSliceFromValue getMapSliceFromValue
     stringify http_exchange receiver_ready).

Lemma run_parts_ok (caches outputs : list string) (program : Script Value)
    (parts : list Part) :
  ∀ st, chans_ok outputs (outputTSChans st) →
        Forall (λ r, r ≠ RunPanic) (run_parts' caches outputs program parts st).1
        ∧ length (run_parts' caches outputs program parts st).1 = length parts
        ∧ chans_ok outputs (outputTSChans (run_parts' caches outputs program parts st).2)
        ∧ chans_grow (outputTSChans st)
            (outputTSChans (run_parts' caches outputs program parts st).2).
Proof.
  induction parts as [|part rest IH]; intros st Hok; cbn [run_parts].
  - split; [constructor|]. split; [done|]. split; [done|apply chans_grow_refl].
  - destruct (RunProgram_footprint getMapFromValue getSliceFromValue getMapSliceFromValue
                stringify http_exchange receiver_ready caches
                (Some outputs) program (with_msgpart part st))
      as (_ & _ & Hg & _ & Hp).
    unfold WriteBatch_part.
    destruct (RunProgram _ _ _ _ _ _ _ _ _ _) as [r st'] eqn:Hrun. simpl in Hg, Hp.
    specialize (Hp Hok).
    assert (Hok' : chans_ok outputs (outputTSChans st')) by (by eapply chans_grow_ok).
    destruct (IH st' Hok') as (Hall & Hlen & Hok'' & Hg').
    destruct (run_parts' caches outputs program rest st') as [rs st'']. simpl in *.
    split; [by constructor|]. split; [by rewrite Hlen|]. split; [done|].
    by eapply chans_grow_trans.
Qed.

(** X19 -- on an output stage as its constructor returns it, running the
    compiled program on one message after another never ends in the panic
    of a send or of a channel index, however many messages and whatever
    the program does: every run ends with no error or with the program's
    own exception, and the stage keeps one open channel per configured
    output throughout. *)
Theorem constructed_stage_never_panics (conf : output.JavaScriptConfig)
    (j : javascriptOutput (Script Value) Streamed) (parts : list Part) (st : HostState) :
  newJavaScriptWriter ReadFile Compile NewOutput Consume conf = inl j →
  outputTSChans st = out_outputTSChans j →
  Forall (λ r, r ≠ RunPanic)
    (run_parts' (out_caches j) (out_outputs j) (out_program j) parts st).1
  ∧ length (run_parts' (out_caches j) (out_outputs j) (out_program j) parts st).1
    = length parts
  ∧ chans_ok (out_outputs j)
      (outputTSChans (run_parts' (out_caches j) (out_outputs j) (out_program j) parts st).2).
Proof.
  intros Hj Hst.
  pose proof (newJavaScriptWriter_chans_ok ReadFile Compile NewOutput Consume conf j Hj)
    as Hok.
  rewrite <- Hst in Hok.
  destruct (run_parts_ok (out_caches j) (out_outputs j) (out_program j) parts st Hok)
    as (H1 & H2 & H3 & _). done.
Qed.

End StageAtWork.

(** ** Starting and stopping the dispatch loop *)

Lemma Consume_all_started (u : nat) (n : nat) (later : list (option nat)) :
  Consume_all (mkConsume (Some u) n) later
  = (replicate (length later) (Some ErrAlreadyStarted), mkConsume (Some u) n).
Proof.
  induction later as [|l later IH]; [done|].
  cbn [Consume_all]. unfold javascriptOutput_Consume at 1. cbn [transactions].
  by rewrite IH.
Qed.

(** X20 -- on a stage not yet started, [Consume] of a channel succeeds and
    starts one goroutine of [loop]; every [Consume] after it, whatever it
    is handed, fails with [ErrAlreadyStarted], starts nothing and keeps the
    first channel.  A [Consume] that is handed a nil channel also starts a
    goroutine, but leaves the stage looking not started. *)
Theorem Consume_starts_once (j : ConsumeState) (u : nat) (later : list (option nat)) :
  transactions j = None →
  Consume_all j (Some u :: later)
  = (None :: replicate (length later) (Some ErrAlreadyStarted),
     mkConsume (Some u) (S (loops_started j)))
  ∧ javascriptOutput_Consume j None = (None, mkConsume None (S (loops_started j))).
Proof.
  intros Hj. cbn [Consume_all]. unfold javascriptOutput_Consume. rewrite Hj.
  by rewrite Consume_all_started.
Qed.









Lemma step_keeps_running (ev : Event) (s : LoopState) :
  asks_to_stop ev = false →
  (pc s = AtLoopHead ∨ pc s = AtSelect) ∧ closeNow (shutSig s) = false
  ∧ hasClosed (shutSig s) = false ∧ done_actions s = []
  ∧ Forall (λ c, chan_closed c = false) (chans s)
  ∧ Forall (λ o, sink_triggered o = false) (sinks s) →
  (pc (step ev s) = AtLoopHead ∨ pc (step ev s) = AtSelect)
  ∧ closeNow (shutSig (step ev s)) = false
  ∧ hasClosed (shutSig (step ev s)) = false ∧ done_actions (step ev s) = []
  ∧ Forall (λ c, chan_closed c = false) (chans (step ev s))
  ∧ Forall (λ o, sink_triggered o = false) (sinks (step ev s)).
Proof.
  destruct s as [p a g cs os d]. simpl.
  intros Hev (Hpc & Hnow & Hclosed & Hd & Hcs & Hos).
  assert (Hstep : step ev (mkLoop p a g cs os d) = stage_step ev (mkLoop p a g cs os d))
    by (unfold step; destruct Hpc as [-> | ->]; done).
  rewrite Hstep. clear Hstep.
  destruct ev; try done; unfold stage_step, goroutine_step; simpl.
  - destruct Hpc as [-> | ->]; unfold ShouldCloseNow; rewrite Hnow; simpl; auto 10.
  - destruct Hpc as [-> | ->]; simpl; auto 10.
  - destruct Hpc as [-> | ->]; simpl; auto 10.
  - destruct (os !! i) as [o|] eqn:Ho; simpl; [|auto 10].
    repeat split; try done.
    apply Forall_insert; [done|]. simpl.
    by apply (proj1 (Forall_lookup _ _) Hos i o).
  - destruct (cs !! i) as [c|] eqn:Hc; simpl; [|auto 10].
    unfold select_send.
    rewrite (proj1 (Forall_lookup _ _) Hcs i c Hc). simpl.
    repeat split; try done. by apply Forall_insert.
  - destruct Hpc as [-> | ->]; simpl; auto 10.
Qed.

(** X22 -- a loop started on a stage whose close was not requested, with
    open channels and untriggered sinks, keeps running for as long as the
    upstream channel stays open and nobody calls [TriggerCloseNow]:
    whatever else happens (transactions arriving, sinks closing on their
    own, scripts sending), it stays in its loop, closes no channel,
    triggers no sink and does not mark the stage closed. *)
Theorem loop_keeps_running (evs : list Event) (cs : list TSChan) (os : list Sink) :
  Forall (λ ev, asks_to_stop ev = false) evs →
  Forall (λ c, chan_closed c = false) cs →
  Forall (λ o, sink_triggered o = false) os →
  let s := run evs (loop_start NewSignaller cs os) in
  (pc s = AtLoopHead ∨ pc s = AtSelect)
  ∧ hasClosed (shutSig s) = false
  ∧ done_actions s = []
  ∧ Forall (λ c, chan_closed c = false) (chans s)
  ∧ Forall (λ o, sink_triggered o = false) (sinks s).
Proof.
  intros Hevs Hcs Hos. cbn zeta.
  assert (Hgen : ∀ s,
    (pc s = AtLoopHead ∨ pc s = AtSelect) ∧ closeNow (shutSig s) = false
    ∧ hasClosed (shutSig s) = false ∧ done_actions s = []
    ∧ Forall (λ c, chan_closed c = false) (chans s)
    ∧ Forall (λ o, sink_triggered o = false) (sinks s) →
    (pc (run evs s) = AtLoopHead ∨ pc (run evs s) = AtSelect)
    ∧ closeNow (shutSig (run evs s)) = false
    ∧ hasClosed (shutSig (run evs s)) = false ∧ done_actions (run evs s) = []
    ∧ Forall (λ c, chan_closed c = false) (chans (run evs s))
    ∧ Forall (λ o, sink_triggered o = false) (sinks (run evs s))).
  { induction Hevs as [|ev evs Hev Hevs IH]; intros s Hs; [done|].
    simpl. apply IH. by apply step_keeps_running. }
  destruct (Hgen (loop_start NewSignaller cs os)) as (H1 & _ & H3 & H4 & H5 & H6).
  { simpl. auto 10. }
  done.
Qed.

Section MessageFacts.
Context {Value : Type} `{!GojaValue Value}.
Variable getMapFromValue : Value → gmap string any * option error.
Variable getSliceFromValue : Value → list any * option error.
Variable getMapSliceFromValue : Value → list (gmap string any) * option error.
Variable stringify : any → string.
Variable http_exchange : string → string → string → string → (Z * string) + error.
Variable receiver_ready : nat → bool.

Local Abbreviation parseArgs' :=
  (parseArgs getMapFromValue getSliceFromValue getMapSliceFromValue).
Local Abbreviation host_functions' :=
  (host_functions getMapFromValue getSliceFromValue getMapSliceFromValue
     stringify http_exchange receiver_ready).
Local Abbreviation call_global' :=
  (call_global getMapFromValue getSliceFromValue getMapSliceFromValue
     stringify http_exchange receiver_ready).
Local Abbreviation RunProgram' :=
  (RunProgram getMapFromValue getSliceFromValue getMapSliceFromValue
     stringify http_exchange receiver_ready).

Lemma host_functions_message (caches : list string) (j : option (list string))
    (name : string) (body : HostFunction) (call : list Value) (st : HostState) :
  (name, body) ∈ host_functions' caches j →
  (name ≠ "setMeta" → metadata (msgpart (body call st).2) = metadata (msgpart st))
  ∧ (name ≠ "setRoot" → structured (msgpart (body call st).2) = structured (msgpart st)).
Proof.
  unfold host_functions. intros Hin.
  repeat (apply elem_of_cons in Hin as [Hin|Hin];
          [inversion Hin; subst name body; clear Hin|]);
    [..|by apply not_elem_of_nil in Hin];
    (split; intros Hne; try done);
    unfold fetch, getMeta, setMeta, setRoot, getRoot, getCacheRes, setCacheRes,
      getCache, setCache, benthos_output, AccessCache_Get, AccessCache_Set, select_send;
    repeat match goal with
           | |- context [parseArgs' call ?ps] => destruct (parseArgs' call ps) as [[?|] ?]
           | |- context [match ?x with _ => _ end] => destruct x; simpl
           | |- context [if ?x then _ else _] => destruct x; simpl
           end; done.
Qed.

Lemma call_global_Some_name (caches : list string) (j : option (list string))
    (name : string) (call : list Value) (st : HostState)
    (r : bridged Value * HostState) :
  call_global' caches j name call st = Some r →
  ∃ body, (name, body) ∈ host_functions' caches j ∧ r = setFunction name body call st.
Proof.
  unfold call_global, getVM.
  destruct (list_find _ _) as [[i [n f]]|] eqn:Hfind; [|done].
  intros Hr. inversion Hr; subst r. clear Hr.
  apply list_find_Some in Hfind as (Hl & Hn & _). simpl in Hn. subst n.
  apply list_lookup_fmap_Some in Hl as ([n' body] & Heq & Hl).
  simpl in Heq. inversion Heq; subst. exists body. split; [|done].
  apply list_elem_of_lookup. eauto.
Qed.

Lemma setFunction_message (name : string) (body : HostFunction) (call : list Value)
    (st : HostState) :
  msgpart (setFunction name body call st).2 = msgpart (body call st).2.
Proof.
  unfold setFunction. by destruct (body call st) as [[result [err|]|] st'].
Qed.

Lemma RunProgram_message (caches : list string) (j : option (list string))
    (name : string) (proj : Part → Prop) (program : Script Value) :
  never_calls name program →
  (∀ n body call st, (n, body) ∈ host_functions' caches j → n ≠ name →
     proj (msgpart st) → proj (msgpart (body call st).2)) →
  ∀ st, proj (msgpart st) → proj (msgpart (RunProgram' caches j program st).2).
Proof.
  intros Hnc Hbody. induction Hnc as [|e|n call k Hn Hk IH]; intros st Hst; try done.
  cbn [RunProgram].
  destruct (call_global' caches j n call st) as [[b st1]|] eqn:Hcall; [|done].
  apply call_global_Some_name in Hcall as (body & Hin & Hr).
  assert (Hst1 : proj (msgpart st1)).
  { replace st1 with (setFunction n body call st).2 by (by rewrite <- Hr).
    rewrite setFunction_message. by eapply Hbody. }
  destruct b as [v|]; [by apply IH|done].
Qed.

(** X23 -- whatever else it calls, a program that never calls [setMeta]
    leaves the message's metadata as it was, and a program that never
    calls [setRoot] leaves the message's structured payload field as it
    was: no other host function writes them. *)
Theorem message_written_by_setMeta_setRoot_only (caches : list string)
    (j : option (list string)) (program : Script Value) (st : HostState) :
  (never_calls "setMeta" program →
     metadata (msgpart (RunProgram' caches j program st).2) = metadata (msgpart st))
  ∧ (never_calls "setRoot" program →
     structured (msgpart (RunProgram' caches j program st).2) = structured (msgpart st)).
Proof.
  split; intros Hnc.
  - apply (RunProgram_message caches j "setMeta"
             (λ p, metadata p = metadata (msgpart st)) program Hnc); [|done].
    intros n body call st0 Hin Hne Hst0.
    destruct (host_functions_message caches j n body call st0 Hin) as [Hm _].
    by rewrite (Hm Hne).
  - apply (RunProgram_message caches j "setRoot"
             (λ p, structured p = structured (msgpart st)) program Hnc); [|done].
    intros n body call st0 Hin Hne Hst0.
    destruct (host_functions_message caches j n body call st0 Hin) as [_ Hs].
    by rewrite (Hs Hne).
Qed.

End MessageFacts.


(** ** The arguments of [fetch] *)

Section FetchFacts.
Context {Value : Type} `{!GojaValue Value}.
Variable getMapFromValue : Value → gmap string any * option error.
Variable getSliceFromValue : Value → list any * option error.
Variable getMapSliceFromValue : Value → list (gmap string any) * option error.
Variable http_exchange : string → string → string → string → (Z * string) + error.

Local Abbreviation fetch' :=
  (fetch getMapFromValue getSliceFromValue getMapSliceFromValue http_exchange).

(** X24 -- [fetch], called with at most its four arguments and none of
    them undefined, makes its HTTP exchange on the strings of the arguments
    supplied, in the order url, headers, method, payload, and on the
    defaults (no headers, method [GET], no payload, and the empty url) for
    those left out.  It returns the status and body of the exchange or
    its error, and in either case leaves the state as it was. *)
Theorem fetch_arguments (call : list Value) (st : HostState) :
  length call ≤ 4 → Forall (λ a, IsUndefined a = false) call →
  ∃ url headers method payload,
    (vString <$> call) ++ drop (length call) [""; ""; "GET"; ""]
    = [url; headers; method; payload]
    ∧ fetch' call st
      = match http_exchange method url headers payload with
        | inr e => (Returned ANil (Some e), st)
        | inl (status, body) =>
            (Returned (AMap (<["status" := AInt status]> (<["body" := AString body]> ∅)))
               None, st)
        end.
Proof.
  intros Hlen Hdef. unfold fetch.
  rewrite (parseArgs_strings _ _ _ call [""; ""; "GET"; ""]) by done.
  destruct call as [|a0 [|a1 [|a2 [|a3 [|a4 call]]]]]; simpl in Hlen; try lia;
    eexists _, _, _, _; (split; [reflexivity|]); reflexivity.
Qed.

End FetchFacts.


(** * The further properties at concrete inputs *)

Lemma parseArgs_succeeds_iff_witness :
  Forall (λ p : ptr JSValue, infallible p = true) [PString ""; PInt 0; PAny ANil]
  ∧ ((js_parseArgs [JSString "a"; JSString "7"] [PString ""; PInt 0; PAny ANil]).1 = None
     ↔ length [JSString "a"; JSString "7"] ≤ length [PString (Value:=JSValue) ""; PInt 0; PAny ANil]
       ∧ Forall (λ a, IsUndefined a = false) [JSString "a"; JSString "7"]).
Proof.
  assert (Hinf : Forall (λ p : ptr JSValue, infallible p = true)
                   [PString ""; PInt 0; PAny ANil]) by (repeat constructor).
  split; [exact Hinf|].
  exact (parseArgs_succeeds_iff js_getMapFromValue js_getSliceFromValue
           js_getMapSliceFromValue [JSString "a"; JSString "7"] _ Hinf).
Defined.

Lemma parseArgs_strings_witness :
  length [JSInt 3; JSNull] ≤ length ["d0"; "d1"; "d2"]
  ∧ Forall (λ a, IsUndefined a = false) [JSInt 3; JSNull]
  ∧ js_parseArgs [JSInt 3; JSNull] [PString "d0"; PString "d1"; PString "d2"]
    = (None, [PString "3"; PString "null"; PString "d2"]).
Proof.
  assert (Hlen : length [JSInt 3; JSNull] ≤ length ["d0"; "d1"; "d2"]) by (simpl; lia).
  assert (Hdef : Forall (λ a, IsUndefined a = false) [JSInt 3; JSNull])
    by (repeat constructor).
  split; [exact Hlen|]. split; [exact Hdef|].
  exact (parseArgs_strings js_getMapFromValue js_getSliceFromValue js_getMapSliceFromValue
           [JSInt 3; JSNull] ["d0"; "d1"; "d2"] Hlen Hdef).
Defined.

Lemma parseArgs_first_undefined_witness :
  Forall (λ a, IsUndefined a = false) [JSString "k"]
  ∧ IsUndefined JSUndefined = true
  ∧ length ([JSString "k"] ++ JSUndefined :: [JSString "z"]) ≤ length ["d0"; "d1"; "d2"]
  ∧ js_parseArgs [JSString "k"; JSUndefined; JSString "z"]
      [PString "d0"; PString "d1"; PString "d2"]
    = (Some (ErrUndefinedArgument 1), [PString "k"; PString "d1"; PString "d2"]).
Proof.
  assert (Hdef : Forall (λ a, IsUndefined a = false) [JSString "k"])
    by (repeat constructor).
  assert (Hu : IsUndefined JSUndefined = true) by reflexivity.
  assert (Hlen : length ([JSString "k"] ++ JSUndefined :: [JSString "z"])
                 ≤ length ["d0"; "d1"; "d2"]) by (simpl; lia).
  split; [exact Hdef|]. split; [exact Hu|]. split; [exact Hlen|].
  exact (parseArgs_first_undefined js_getMapFromValue js_getSliceFromValue
           js_getMapSliceFromValue [JSString "k"] [JSString "z"] JSUndefined
           ["d0"; "d1"; "d2"] Hdef Hu Hlen).
Defined.

Lemma getCache_as_getCacheRes_witness :
  IsUndefined (JSString "c1") = false ∧ vString (JSString "c1") = "c1"
  ∧ Forall (λ a, IsUndefined a = false) [JSString "k"; JSString "v"]
  ∧ length [JSString "k"; JSString "v"] ≤ 2
  ∧ setCache js_getMapFromValue js_getSliceFromValue js_getMapSliceFromValue
      ["c1"; "c2"] [JSString "k"; JSString "v"] host_with_cache
    = setCacheRes js_getMapFromValue js_getSliceFromValue js_getMapSliceFromValue
        ["c1"; "c2"] [JSString "c1"; JSString "k"; JSString "v"] host_with_cache.
Proof.
  assert (Hu : IsUndefined (JSString "c1") = false) by reflexivity.
  assert (Hs : vString (JSString "c1") = "c1") by reflexivity.
  assert (Hdef : Forall (λ a, IsUndefined a = false) [JSString "k"; JSString "v"])
    by (repeat constructor).
  assert (Hlen : length [JSString "k"; JSString "v"] ≤ 2) by (simpl; lia).
  split; [exact Hu|]. split; [exact Hs|]. split; [exact Hdef|]. split; [exact Hlen|].
  exact (proj2 (getCache_as_getCacheRes js_getMapFromValue js_getSliceFromValue
                  js_getMapSliceFromValue "c1" ["c2"] (JSString "c1")
                  [JSString "k"; JSString "v"] host_with_cache Hu Hs Hdef) Hlen).
Defined.

Lemma cache_round_trip_witness :
  js_parseArgs [JSString "c1"; JSString "k"; JSString "v"]
    [PString ""; PString ""; PString ""]
  = (None, [PString "c1"; PString "k"; PString "v"])
  ∧ js_parseArgs [JSString "c1"; JSString "k"] [PString ""; PString ""]
    = (None, [PString "c1"; PString "k"])
  ∧ "c1" ∈ ["c1"]
  ∧ resources (mgr host_with_cache) !! "c1" = Some ∅
  ∧ ∃ st1 st2,
      setFunction "setCacheRes"
        (setCacheRes js_getMapFromValue js_getSliceFromValue js_getMapSliceFromValue ["c1"])
        [JSString "c1"; JSString "k"; JSString "v"] host_with_cache
      = (BValue JSNull, st1)
      ∧ setFunction "getCacheRes"
          (getCacheRes js_getMapFromValue js_getSliceFromValue js_getMapSliceFromValue ["c1"])
          [JSString "c1"; JSString "k"] st1
        = (BValue (JSString "v"), st2)
      ∧ accesses (mgr st2) = [CacheGet "c1" "k"; CacheSet "c1" "k" "v"]
      ∧ msgpart st2 = empty_part ∧ logger st2 = [].
Proof.
  assert (HS : js_parseArgs [JSString "c1"; JSString "k"; JSString "v"]
                 [PString ""; PString ""; PString ""]
               = (None, [PString "c1"; PString "k"; PString "v"])) by reflexivity.
  assert (HG : js_parseArgs [JSString "c1"; JSString "k"] [PString ""; PString ""]
               = (None, [PString "c1"; PString "k"])) by reflexivity.
  assert (Hin : "c1" ∈ ["c1"]) by apply list_elem_of_here.
  assert (Hres : resources (mgr host_with_cache) !! "c1" = Some ∅) by reflexivity.
  split; [exact HS|]. split; [exact HG|]. split; [exact Hin|]. split; [exact Hres|].
  exact (cache_round_trip js_getMapFromValue js_getSliceFromValue js_getMapSliceFromValue
           ["c1"] _ _ host_with_cache "c1" "k" "v" ∅ HS HG Hin Hres).
Defined.

Lemma cache_backend_failures_witness :
  js_parseArgs [JSString "c2"; JSString "k"; JSString "v"]
    [PString ""; PString ""; PString ""]
  = (None, [PString "c2"; PString "k"; PString "v"])
  ∧ js_parseArgs [JSString "c2"; JSString "k"] [PString ""; PString ""]
    = (None, [PString "c2"; PString "k"])
  ∧ "c2" ∈ ["c1"; "c2"]
  ∧ resources (mgr host_with_cache) !! "c2" = None
  ∧ ∃ st', setCacheRes js_getMapFromValue js_getSliceFromValue js_getMapSliceFromValue
             ["c1"; "c2"] [JSString "c2"; JSString "k"; JSString "v"] host_with_cache
           = (Returned ANil (Some (ErrorsNew "not set")), st')
           ∧ resources (mgr st') = resources (mgr host_with_cache).
Proof.
  assert (HS : js_parseArgs [JSString "c2"; JSString "k"; JSString "v"]
                 [PString ""; PString ""; PString ""]
               = (None, [PString "c2"; PString "k"; PString "v"])) by reflexivity.
  assert (HG : js_parseArgs [JSString "c2"; JSString "k"] [PString ""; PString ""]
               = (None, [PString "c2"; PString "k"])) by reflexivity.
  assert (Hin : "c2" ∈ ["c1"; "c2"]) by (apply list_elem_of_further, list_elem_of_here).
  assert (Hres : resources (mgr host_with_cache) !! "c2" = None) by reflexivity.
  split; [exact HS|]. split; [exact HG|]. split; [exact Hin|]. split; [exact Hres|].
  exact (proj1 (proj1 (cache_backend_failures js_getMapFromValue js_getSliceFromValue
                         js_getMapSliceFromValue ["c1"; "c2"] _ _ host_with_cache
                         "c2" "k" "v" HS HG Hin) Hres)).
Defined.

Lemma setMeta_frame_witness :
  js_parseArgs [JSString "x"; JSString "y"] [PString ""; PString ""]
  = (None, [PString "x"; PString "y"])
  ∧ "other" ≠ "x"
  ∧ MetaGetMut (msgpart (setMeta js_getMapFromValue js_getSliceFromValue
                           js_getMapSliceFromValue [JSString "x"; JSString "y"]
                           host_with_meta).2) "other"
    = Some (AString "kept").
Proof.
  assert (Hp : js_parseArgs [JSString "x"; JSString "y"] [PString ""; PString ""]
               = (None, [PString "x"; PString "y"])) by reflexivity.
  assert (Hne : "other" ≠ "x") by discriminate.
  split; [exact Hp|]. split; [exact Hne|].
  exact (proj1 (setMeta_frame js_getMapFromValue js_getSliceFromValue
                  js_getMapSliceFromValue _ host_with_meta "x" "y" Hp) "other" Hne).
Defined.

Lemma setMeta_last_write_wins_witness :
  let setMeta' := setMeta js_getMapFromValue js_getSliceFromValue js_getMapSliceFromValue in
  js_parseArgs [JSString "x"; JSString "y"] [PString ""; PString ""]
  = (None, [PString "x"; PString "y"])
  ∧ js_parseArgs [JSString "x"] [PString ""; PString ""] = (None, [PString "x"; PString ""])
  ∧ (setMeta' [JSString "x"] (setMeta' [JSString "x"; JSString "y"] host_with_meta).2).2
    = (setMeta' [JSString "x"] host_with_meta).2.
Proof.
  cbn zeta.
  assert (H1 : js_parseArgs [JSString "x"; JSString "y"] [PString ""; PString ""]
               = (None, [PString "x"; PString "y"])) by reflexivity.
  assert (H2 : js_parseArgs [JSString "x"] [PString ""; PString ""]
               = (None, [PString "x"; PString ""])) by reflexivity.
  split; [exact H1|]. split; [exact H2|].
  exact (setMeta_last_write_wins js_getMapFromValue js_getSliceFromValue
           js_getMapSliceFromValue _ _ host_with_meta "x" "y" "" H1 H2).
Defined.

Lemma Process_host_errors_not_fatal_witness :
  never_throws global_names sample_program
  ∧ js_Process ["c1"] sample_program empty_host
    = (Processed [empty_part],
       Errorln (ErrorsNew "run in processor") (Errorln (ErrorsNew "not found") empty_host))
  ∧ ∃ st', js_Process ["c1"] sample_program empty_host = (Processed [msgpart st'], st').
Proof.
  assert (Hnt : never_throws global_names sample_program).
  { apply never_throws_Call.
    - unfold global_names. apply list_elem_of_further, list_elem_of_here.
    - intros v. apply never_throws_Call; [|intros v'; apply never_throws_Finish].
      unfold global_names. do 9 apply list_elem_of_further. apply list_elem_of_here. }
  split; [exact Hnt|]. split; [reflexivity|].
  exact (Process_host_errors_not_fatal js_getMapFromValue js_getSliceFromValue
           js_getMapSliceFromValue js_stringify no_network (λ _, true)
           ["c1"] sample_program empty_host Hnt).
Defined.

Lemma benthos_output_last_occurrence_witness :
  let st := mkHost empty_part (mkManager ∅ []) [make_chan; make_chan; make_chan] [] in
  let out := benthos_output js_getMapFromValue js_getSliceFromValue
               js_getMapSliceFromValue (λ _, true) (Some ["a"; "b"; "a"]) in
  js_parseArgs [JSString "a"; JSString "m"] [PString ""; PString ""]
  = (None, [PString "a"; PString "m"])
  ∧ ["a"; "b"; "a"] !! 2 = Some "a"
  ∧ out [JSString "a"; JSString "m"] st
    = (Returned ANil None,
       with_chans [make_chan; make_chan; mkChan false [mkTransaction ["m"] None]] st)
  ∧ outputTSChans (out [JSString "a"; JSString "m"] st).2 !! 0 = Some make_chan.
Proof.
  cbn zeta.
  assert (Hp : js_parseArgs [JSString "a"; JSString "m"] [PString ""; PString ""]
               = (None, [PString "a"; PString "m"])) by reflexivity.
  assert (Hk : ["a"; "b"; "a"] !! 2 = Some "a") by reflexivity.
  assert (Hlast : ∀ k', 2 < k' → ["a"; "b"; "a"] !! k' ≠ Some "a").
  { intros [|[|[|k']]] Hlt; try lia. simpl. discriminate. }
  split; [exact Hp|]. split; [exact Hk|].
  destruct (benthos_output_last_occurrence js_getMapFromValue js_getSliceFromValue
              js_getMapSliceFromValue (λ _, true) ["a"; "b"; "a"] _
              (mkHost empty_part (mkManager ∅ []) [make_chan; make_chan; make_chan] [])
              "a" "m" 2 Hp Hk Hlast) as (Hres & _ & Hrest).
  split; [exact Hres|]. rewrite (Hrest 0) by lia. reflexivity.
Defined.

Lemma benthos_output_after_shutdown_witness :
  let s := run (orderly_shutdown 1 1)
             (loop_start NewSignaller [make_chan] [mkSink false false]) in
  let st := mkHost empty_part (mkManager ∅ []) (chans s) [] in
  reachable s ∧ hasClosed (shutSig s) = true
  ∧ length ["a"] = length (chans s)
  ∧ "a" ∈ ["a"]
  ∧ setFunction "benthos_output"
      (benthos_output js_getMapFromValue js_getSliceFromValue js_getMapSliceFromValue
         (λ _, true) (Some ["a"])) [JSString "a"; JSString "m"] st
    = (BPanic, st).
Proof.
  cbn zeta.
  set (s := run (orderly_shutdown 1 1)
              (loop_start NewSignaller [make_chan] [mkSink false false])).
  assert (Hr : reachable s).
  { exists NewSignaller, [make_chan], [mkSink false false], (orderly_shutdown 1 1).
    reflexivity. }
  assert (Hclosed : hasClosed (shutSig s) = true) by reflexivity.
  assert (Hlen : length ["a"] = length (chans s)) by reflexivity.
  assert (Hin : "a" ∈ ["a"]) by apply list_elem_of_here.
  assert (Hp : js_parseArgs [JSString "a"; JSString "m"] [PString ""; PString ""]
               = (None, [PString "a"; PString "m"])) by reflexivity.
  split; [exact Hr|]. split; [exact Hclosed|]. split; [exact Hlen|]. split; [exact Hin|].
  exact (proj2 (benthos_output_after_shutdown js_getMapFromValue js_getSliceFromValue
                  js_getMapSliceFromValue (λ _, true) s ["a"] _
                  (mkHost empty_part (mkManager ∅ []) (chans s) []) "a" "m"
                  Hr Hclosed eq_refl Hlen Hp Hin)).
Defined.

Lemma newJavaScriptWriter_result_witness :
  let conf := output.mkConfig "1" "" ["c1"] ["good"; "good"] [] in
  let j := mkOutput "1" ["c1"] ["good"; "good"] [make_chan; make_chan] ["good"; "good"] in
  newJavaScriptWriter fs_empty compile_any only_good consume_ok conf = inl j
  ∧ exactly_one (output.Code conf) (output.File conf)
  ∧ out_outputTSChans j = replicate (length (out_outputs j)) make_chan
  ∧ chans_ok (out_outputs j) (out_outputTSChans j).
Proof.
  cbn zeta.
  assert (Hj : newJavaScriptWriter fs_empty compile_any only_good consume_ok
                 (output.mkConfig "1" "" ["c1"] ["good"; "good"] [])
               = inl (mkOutput "1" ["c1"] ["good"; "good"] [make_chan; make_chan]
                        ["good"; "good"])) by reflexivity.
  split; [exact Hj|].
  destruct (newJavaScriptWriter_result fs_empty compile_any only_good consume_ok _ _ Hj)
    as (H1 & _ & _ & _ & H5 & H6).
  split; [exact H1|]. split; [exact H5|exact H6].
Defined.

Lemma newJavaScriptWriter_first_failing_output_witness :
  let conf := output.mkConfig "1" "" [] ["good"; "bad"; "worse"] [] in
  exactly_one (output.Code conf) (output.File conf)
  ∧ new_outputs only_good (output.OutputRes conf) = inr (ErrExternal "mgr.NewOutput")
  ∧ newJavaScriptWriter fs_empty compile_any only_good consume_ok conf
    = inr (ErrExternal "mgr.NewOutput").
Proof.
  cbn zeta.
  assert (Hone : exactly_one "1" "") by (by left).
  assert (He : new_outputs only_good ["good"; "bad"; "worse"]
               = inr (ErrExternal "mgr.NewOutput")) by reflexivity.
  split; [exact Hone|]. split; [exact He|].
  exact (proj1 (newJavaScriptWriter_first_failing_output fs_empty compile_any only_good
                  consume_ok (output.mkConfig "1" "" [] ["good"; "bad"; "worse"] [])
                  _ Hone He)).
Defined.

Lemma constructed_stage_never_panics_witness :
  let conf := output.mkConfig "1" "" [] ["good"] [] in
  let j := mkOutput sample_program [] ["good"] [make_chan] ["good"] in
  let st := mkHost empty_part (mkManager ∅ []) [make_chan] [] in
  newJavaScriptWriter fs_empty compile_sample only_good consume_ok conf = inl j
  ∧ outputTSChans st = out_outputTSChans j
  ∧ Forall (λ r, r ≠ RunPanic)
      (run_parts js_getMapFromValue js_getSliceFromValue js_getMapSliceFromValue
         js_stringify no_network (λ _, true) [] ["good"] sample_program
         [empty_part; empty_part] st).1
  ∧ chan_taken <$> outputTSChans
      (run_parts js_getMapFromValue js_getSliceFromValue js_getMapSliceFromValue
         js_stringify no_network (λ _, true) [] ["good"] sample_program
         [empty_part; empty_part] st).2
    = [[mkTransaction ["m"] None; mkTransaction ["m"] None]].
Proof.
  cbn zeta.
  assert (Hj : newJavaScriptWriter fs_empty compile_sample only_good consume_ok
                 (output.mkConfig "1" "" [] ["good"] [])
               = inl (mkOutput sample_program [] ["good"] [make_chan] ["good"]))
    by reflexivity.
  split; [exact Hj|]. split; [reflexivity|]. split; [|reflexivity].
  exact (proj1 (constructed_stage_never_panics js_getMapFromValue js_getSliceFromValue
                  js_getMapSliceFromValue js_stringify no_network (λ _, true)
                  fs_empty compile_sample only_good consume_ok _ _
                  [empty_part; empty_part]
                  (mkHost empty_part (mkManager ∅ []) [make_chan] []) Hj eq_refl)).
Defined.

Lemma Consume_starts_once_witness :
  transactions (mkConsume None 0) = None
  ∧ Consume_all (mkConsume None 0) [Some 5; Some 6; None]
    = ([None; Some ErrAlreadyStarted; Some ErrAlreadyStarted], mkConsume (Some 5) 1).
Proof.
  split; [reflexivity|].
  exact (proj1 (Consume_starts_once (mkConsume None 0) 5 [Some 6; None] eq_refl)).
Defined.


Lemma loop_keeps_running_witness :
  let evs := [Run; Upstream (mkTransaction ["m"] None); Run; SinkCloses 0;
              ScriptSend 0 "v"; Tick] in
  let s := run evs (loop_start NewSignaller [make_chan] [mkSink false false]) in
  Forall (λ ev, asks_to_stop ev = false) evs
  ∧ (pc s = AtLoopHead ∨ pc s = AtSelect)
  ∧ hasClosed (shutSig s) = false
  ∧ done_actions s = []
  ∧ Forall (λ c, chan_closed c = false) (chans s)
  ∧ Forall (λ o, sink_triggered o = false) (sinks s).
Proof.
  cbn zeta.
  assert (Hevs : Forall (λ ev, asks_to_stop ev = false)
                   [Run; Upstream (mkTransaction ["m"] None); Run; SinkCloses 0;
                    ScriptSend 0 "v"; Tick]) by (repeat constructor).
  assert (Hcs : Forall (λ c, chan_closed c = false) [make_chan]) by (repeat constructor).
  assert (Hos : Forall (λ o, sink_triggered o = false) [mkSink false false])
    by (repeat constructor).
  split; [exact Hevs|].
  exact (loop_keeps_running _ [make_chan] [mkSink false false] Hevs Hcs Hos).
Defined.

Lemma fetch_arguments_witness :
  length [JSString "http://h"; JSString "A: b"] ≤ 4
  ∧ Forall (λ a, IsUndefined a = false) [JSString "http://h"; JSString "A: b"]
  ∧ ∃ url headers method payload,
      [url; headers; method; payload] = ["http://h"; "A: b"; "GET"; ""]
      ∧ fetch js_getMapFromValue js_getSliceFromValue js_getMapSliceFromValue no_network
          [JSString "http://h"; JSString "A: b"] empty_host
        = match no_network method url headers payload with
          | inr e => (Returned ANil (Some e), empty_host)
          | inl (status, body) =>
              (Returned (AMap (<["status" := AInt status]> (<["body" := AString body]> ∅)))
                 None, empty_host)
          end.
Proof.
  assert (Hlen : length [JSString "http://h"; JSString "A: b"] ≤ 4) by (simpl; lia).
  assert (Hdef : Forall (λ a, IsUndefined a = false) [JSString "http://h"; JSString "A: b"])
    by (repeat constructor).
  split; [exact Hlen|]. split; [exact Hdef|].
  destruct (fetch_arguments js_getMapFromValue js_getSliceFromValue js_getMapSliceFromValue
              no_network [JSString "http://h"; JSString "A: b"] empty_host Hlen Hdef)
    as (url & headers & method & payload & Hargs & Hfetch).
  exists url, headers, method, payload. split; [exact (eq_sym Hargs)|exact Hfetch].
Defined.
